(** * An untyped lambda-calculus engine: terms, capture-avoiding
      substitution, and the alpha / beta / eta rewrite rules.

    The definitions below follow [lambda_calculus.py] function by function.
    Python sets of names are finite sets of strings ([gset string]); the
    unbounded Python integers that bound the reduction loops are [Z]. *)

From stdpp Require Import gmap strings list pretty.

(* [case_decide] clears hypotheses by name and warns when one is gone. *)
#[local] Set Warnings "-clear-no-such-hyp".

(** ** Terms (classes [Var], [Abs], [App]) *)

Inductive LambdaTerm : Type :=
| Var (name : string)
| Abs (var : string) (body : LambdaTerm)
| App (func : LambdaTerm) (arg : LambdaTerm).

Global Instance LambdaTerm_eq_dec : EqDecision LambdaTerm.
Proof. solve_decision. Defined.

(** [__eq__] of the three classes: same class, equal fields. *)
Fixpoint term_eq (self other : LambdaTerm) : bool :=
  match self, other with
  | Var name, Var name' => bool_decide (name = name')
  | Abs var body, Abs var' body' => bool_decide (var = var') && term_eq body body'
  | App func arg, App func' arg' => term_eq func func' && term_eq arg arg'
  | _, _ => false
  end.

(** [free_vars] of each class. *)
Fixpoint free_vars (t : LambdaTerm) : gset string :=
  match t with
  | Var name => {[ name ]}
  | Abs var body => free_vars body ∖ {[ var ]}
  | App func arg => free_vars func ∪ free_vars arg
  end.

(** [term_size]: number of nodes. *)
Fixpoint term_size (term : LambdaTerm) : nat :=
  match term with
  | Var _ => 1
  | Abs _ body => 1 + term_size body
  | App func arg => 1 + term_size func + term_size arg
  end.

(** ** Fresh names ([Abs._fresh_var]) *)

(** The candidate name [f"{base}_{counter}"]. *)
Definition suffixed (base : string) (counter : nat) : string :=
  base +:+ "_" +:+ pretty counter.

(** The [while f"{base}_{counter}" in avoid: counter += 1] loop.  The loop
    has no syntactic bound, so the model counts iterations down from [fuel];
    [None] means the fuel ran out before a candidate was found. *)
Fixpoint fresh_var_loop (fuel : nat) (base : string) (avoid : gset string)
    (counter : nat) : option string :=
  match fuel with
  | O => None
  | S fuel' =>
      if decide (suffixed base counter ∈ avoid)
      then fresh_var_loop fuel' base avoid (S counter)
      else Some (suffixed base counter)
  end.

(** [_fresh_var]: the loop is started at [counter = 1].  One more iteration
    than [avoid] has elements always suffices ([fresh_var_loop_enough]
    below), so the default is never taken. *)
Definition _fresh_var (base : string) (avoid : gset string) : string :=
  default base (fresh_var_loop (S (size avoid)) base avoid 1).

(** ** Substitution (method [substitute] of each class) *)

(** The capture branch of [Abs.substitute] calls [substitute] on the result
    of another [substitute], which is not a subterm; [fuel] bounds the depth
    of the calls. *)
Fixpoint substitute_fuel (fuel : nat) (self : LambdaTerm) (var : string)
    (term : LambdaTerm) : option LambdaTerm :=
  match fuel with
  | O => None
  | S fuel' =>
      match self with
      | Var name =>
          if decide (name = var) then Some term else Some self
      | Abs self_var body =>
          if decide (self_var = var) then Some self
          else if decide (self_var ∉ free_vars term) then
            Abs self_var <$> substitute_fuel fuel' body var term
          else
            let fresh_var :=
              _fresh_var self_var
                (free_vars term ∪ free_vars body ∪ {[ var ]}) in
            renamed_body ← substitute_fuel fuel' body self_var (Var fresh_var);
            Abs fresh_var <$> substitute_fuel fuel' renamed_body var term
      | App func arg =>
          func' ← substitute_fuel fuel' func var term;
          arg' ← substitute_fuel fuel' arg var term;
          Some (App func' arg')
      end
  end.

(** [self.substitute(var, term)].  A depth of [term_size self] is always
    enough ([substitute_fuel_enough]), so the default is never taken. *)
Definition substitute (self : LambdaTerm) (var : string) (term : LambdaTerm)
    : LambdaTerm :=
  default self (substitute_fuel (term_size self) self var term).

(** ** Rewrite rules *)

(** [beta_reduce]: one step; [None] is Python's [None], "no reduction". *)
Fixpoint beta_reduce (term : LambdaTerm) : option LambdaTerm :=
  match term with
  | Var _ => None
  | Abs var body =>
      match beta_reduce body with
      | Some reduced_body => Some (Abs var reduced_body)
      | None => None
      end
  | App func arg =>
      match func with
      | Abs func_var func_body => Some (substitute func_body func_var arg)
      | _ =>
          match beta_reduce func with
          | Some reduced_func => Some (App reduced_func arg)
          | None =>
              match beta_reduce arg with
              | Some reduced_arg => Some (App func reduced_arg)
              | None => None
              end
          end
      end
  end.

(** Attribute access on an object of one of the three classes.  [Var] has
    the single field [name], [Abs] has [var] and [body], [App] has [func]
    and [arg]; reading a field the object does not have raises
    [AttributeError]. *)
Inductive exn : Type := AttributeError.

Definition result (A : Type) : Type := exn + A.

Definition ret {A} (a : A) : result A := inr a.

Definition bind {A B} (m : result A) (k : A → result B) : result B :=
  match m with
  | inl e => inl e
  | inr a => k a
  end.

Notation "x <-! m ; k" := (bind m (fun x => k))
  (at level 100, m at next level, right associativity, only parsing).

Definition attr_body (term : LambdaTerm) : result LambdaTerm :=
  match term with
  | Abs _ body => ret body
  | _ => inl AttributeError
  end.

Definition attr_var (term : LambdaTerm) : result string :=
  match term with
  | Abs var _ => ret var
  | _ => inl AttributeError
  end.

(** [alpha_convert]: [Abs(new_var, term.body.substitute(term.var,
    Var(new_var)))].  The annotation [term: Abs] is not enforced at run
    time, so the argument is any term and the two field reads can fail. *)
Definition alpha_convert (term : LambdaTerm) (new_var : string)
    : result LambdaTerm :=
  body <-! attr_body term;
  var <-! attr_var term;
  ret (Abs new_var (substitute body var (Var new_var))).

(** [eta_convert]: the nested [isinstance] tests, outermost shape only. *)
Definition eta_convert (term : LambdaTerm) : option LambdaTerm :=
  match term with
  | Abs var (App func (Var name)) =>
      if decide (name = var) then
        if decide (var ∉ free_vars func) then Some func else None
      else None
  | _ => None
  end.

(** The [while steps < max_steps] loop of [normalize], run for the
    iterations that remain. *)
Fixpoint normalize_loop (remaining : nat) (current : LambdaTerm)
    : LambdaTerm :=
  match remaining with
  | O => current
  | S remaining' =>
      match beta_reduce current with
      | None => current
      | Some reduced => normalize_loop remaining' reduced
      end
  end.

(** [normalize(term, max_steps)]; a bound that is zero or negative runs no
    iteration. *)
Definition normalize (term : LambdaTerm) (max_steps : Z) : LambdaTerm :=
  normalize_loop (Z.to_nat max_steps) term.

(** The bound used when the caller passes none. *)
Definition default_max_steps : Z := 1000.

Definition is_normal_form (term : LambdaTerm) : bool :=
  match beta_reduce term with
  | None => true
  | Some _ => false
  end.

(** ** Church encodings *)

(** [church_numeral(n)]: [range(n)] is empty for [n <= 0]. *)
Definition church_numeral (n : Z) : LambdaTerm :=
  Abs "f" (Abs "x" (Nat.iter (Z.to_nat n) (App (Var "f")) (Var "x"))).

Definition church_succ : LambdaTerm :=
  Abs "n" (Abs "f" (Abs "x"
    (App (Var "f") (App (App (Var "n") (Var "f")) (Var "x"))))).

Definition church_add : LambdaTerm :=
  Abs "m" (Abs "n" (Abs "f" (Abs "x"
    (App (App (Var "m") (Var "f"))
         (App (App (Var "n") (Var "f")) (Var "x")))))).

Definition church_mult : LambdaTerm :=
  Abs "m" (Abs "n" (Abs "f"
    (App (Var "m") (App (Var "n") (Var "f"))))).

(** ** Analysis helpers *)

Fixpoint count_redexes (term : LambdaTerm) : nat :=
  match term with
  | Var _ => 0
  | Abs _ body => count_redexes body
  | App func arg =>
      let count := count_redexes func + count_redexes arg in
      match func with
      | Abs _ _ => count + 1
      | _ => count
      end
  end.

(** The [for _ in range(max_steps)] loop of [reduction_steps]; [steps] is
    the list being appended to. *)
Fixpoint reduction_steps_loop (remaining : nat) (steps : list LambdaTerm)
    (current : LambdaTerm) : list LambdaTerm :=
  match remaining with
  | O => steps
  | S remaining' =>
      match beta_reduce current with
      | None => steps
      | Some reduced =>
          reduction_steps_loop remaining' (steps ++ [reduced]) reduced
      end
  end.

Definition reduction_steps (term : LambdaTerm) (max_steps : Z)
    : list LambdaTerm :=
  reduction_steps_loop (Z.to_nat max_steps) [term] term.

(** The omega term [(λx.x x) (λx.x x)]. *)
Definition omega : LambdaTerm :=
  App (Abs "x" (App (Var "x") (Var "x")))
      (Abs "x" (App (Var "x") (Var "x"))).

(** The entries that the loop of [reduction_steps] appends, as a list of
    their own: the successive one-step reducts of [current], at most
    [remaining] of them. *)
Fixpoint reducts (remaining : nat) (current : LambdaTerm) : list LambdaTerm :=
  match remaining with
  | O => []
  | S remaining' =>
      match beta_reduce current with
      | None => []
      | Some reduced => reduced :: reducts remaining' reduced
      end
  end.

(** [isinstance(term, Abs)]. *)
Definition is_Abs (term : LambdaTerm) : bool :=
  match term with
  | Abs _ _ => true
  | _ => false
  end.

(** ** Remaining term builders *)

Definition church_true : LambdaTerm := Abs "t" (Abs "f" (Var "t")).

Definition church_false : LambdaTerm := Abs "t" (Abs "f" (Var "f")).

Definition church_and : LambdaTerm :=
  Abs "p" (Abs "q" (App (App (Var "p") (Var "q")) (Var "p"))).

Definition church_or : LambdaTerm :=
  Abs "p" (Abs "q" (App (App (Var "p") (Var "p")) (Var "q"))).

Definition church_not : LambdaTerm :=
  Abs "p" (Abs "t" (Abs "f" (App (App (Var "p") (Var "f")) (Var "t")))).

(** The Church boolean of a truth value, to state truth tables. *)
Definition church_bool (b : bool) : LambdaTerm :=
  if b then church_true else church_false.

(** [inner = Abs("x", App(Var("f"), App(Var("x"), Var("x"))))]. *)
Definition Y_inner : LambdaTerm :=
  Abs "x" (App (Var "f") (App (Var "x") (Var "x"))).

Definition Y_combinator : LambdaTerm := Abs "f" (App Y_inner Y_inner).

(** ** Display ([__str__] of each class) *)

(** A text is the string of its UTF-8 bytes, so that the letter lambda
    takes two of them; two Python texts are equal exactly when these
    strings are. *)

Fixpoint term_str (t : LambdaTerm) : string :=
  match t with
  | Var name => name
  | Abs var body => "(λ" +:+ var +:+ "." +:+ term_str body +:+ ")"
  | App func arg =>
      let func_str := term_str func in
      let arg_str := term_str arg in
      let arg_str :=
        match arg with
        | App _ _ | Abs _ _ => "(" +:+ arg_str +:+ ")"
        | Var _ => arg_str
        end in
      func_str +:+ " " +:+ arg_str
  end.

(** ** The interactive front end ([repl.py], class [LambdaREPL]) *)

(** [_setup_builtins], starting from the empty dictionary of [__init__]. *)
Definition setup_builtins : gmap string LambdaTerm :=
  let env := ∅ in
  let env := <["id" := Abs "x" (Var "x")]> env in
  let env := <["const" := Abs "x" (Abs "y" (Var "x"))]> env in
  let env :=
    <["omega" := App (Abs "x" (App (Var "x") (Var "x")))
                     (Abs "x" (App (Var "x") (Var "x")))]> env in
  let env :=
    foldl (λ env i, <["c" +:+ pretty i := church_numeral (Z.of_nat i)]> env)
      env (seq 0 10) in
  let env := <["true" := church_true]> env in
  let env := <["false" := church_false]> env in
  let env := <["succ" := church_succ]> env in
  let env := <["add" := church_add]> env in
  let env := <["mult" := church_mult]> env in
  let env := <["and" := church_and]> env in
  let env := <["or" := church_or]> env in
  let env := <["not" := church_not]> env in
  <["Y" := Y_combinator]> env.

(** The command handlers print; the model returns the argument of each
    [print] call, in order.  [newline] is the line feed that starts some
    of the printed texts. *)
Definition newline : string := String (Ascii.ascii_of_nat 10) EmptyString.

Definition not_defined (name : string) : string :=
  "Error: '" +:+ name +:+ "' not defined".




Definition limited_note : string := "  ... (limited to 10 steps)".

Definition show_reduction_steps (env : gmap string LambdaTerm)
    (name : string) : list string :=
  match env !! name with
  | Some term =>
      let steps := reduction_steps term 10 in
      [newline +:+ "Reduction steps for '" +:+ name +:+ "':"]
      ++ imap (λ i step, "  Step " +:+ pretty i +:+ ": " +:+ term_str step)
           steps
      ++ (if decide (length steps = 11) then [limited_note] else [])
  | None => [not_defined name]
  end.

(** ** Names without display punctuation, and the spine of a term *)

(** The characters that [__str__] itself writes around names. *)
Definition is_delim (c : Ascii.ascii) : bool :=
  bool_decide (String c EmptyString ∈ [" "; "("; ")"; "."]).

(** A name that contains none of them, and a term all of whose names,
    free or bound, are such. *)
Fixpoint name_ok (s : string) : bool :=
  match s with
  | EmptyString => true
  | String c s' => negb (is_delim c) && name_ok s'
  end.

Fixpoint names_ok (t : LambdaTerm) : bool :=
  match t with
  | Var name => name_ok name
  | Abs var body => name_ok var && names_ok body
  | App func arg => names_ok func && names_ok arg
  end.

(** The text [__str__] of [App] writes for its argument. *)
Definition arg_str (arg : LambdaTerm) : string :=
  match arg with
  | App _ _ | Abs _ _ => "(" +:+ term_str arg +:+ ")"
  | Var _ => term_str arg
  end.

(** [f a1 ... an] seen as its head [f] and arguments [a1 ... an], and the
    text written for the arguments. *)
Fixpoint spine_head (t : LambdaTerm) : LambdaTerm :=
  match t with
  | App func _ => spine_head func
  | _ => t
  end.

Fixpoint spine_args (t : LambdaTerm) : list LambdaTerm :=
  match t with
  | App func arg => spine_args func ++ [arg]
  | _ => []
  end.

Fixpoint args_str (args : list LambdaTerm) : string :=
  match args with
  | [] => ""
  | arg :: args' => " " +:+ arg_str arg +:+ args_str args'
  end.

(** [isinstance(term, App)]. *)
Definition is_App (t : LambdaTerm) : bool :=
  match t with App _ _ => true | _ => false end.

(** What may follow the display of a subterm inside a larger display:
    nothing, a separating space or a closing parenthesis ([stops]); after a
    whole parenthesized or bound subterm, nothing or a closing parenthesis
    ([closes]). *)
Definition stops (r : string) : Prop :=
  match r with
  | EmptyString => True
  | String c _ => String c EmptyString = " " ∨ String c EmptyString = ")"
  end.

Definition closes (r : string) : Prop :=
  match r with
  | EmptyString => True
  | String c _ => String c EmptyString = ")"
  end.

(** ** The interpreter's call stack *)

(** CPython raises [RecursionError] when a call would take the stack past
    its recursion limit, 1000 frames unless the program changes it.
    [beta_reduce] calls itself once for every level of the term it walks
    down, so a deep term can exhaust the stack.  Below are [beta_reduce],
    [normalize] and [reduction_steps] once more, with [frames] the number
    of frames still free when [beta_reduce] is entered.  Only the calls of
    [beta_reduce] to itself are charged a frame; the calls it makes to
    [substitute] at the redex are charged none.  So an error here is an
    error of the code, at the same step or an earlier one, while a result
    here is the result of the code if the code returns one. *)
Inductive stack_result (A : Type) : Type :=
| Returned (a : A)
| RecursionError.

Arguments Returned {A} a.
Arguments RecursionError {A}.

Fixpoint beta_reduce_stack (frames : nat) (term : LambdaTerm)
    : stack_result (option LambdaTerm) :=
  match frames with
  | O => RecursionError
  | S frames' =>
      match term with
      | Var _ => Returned None
      | Abs var body =>
          match beta_reduce_stack frames' body with
          | RecursionError => RecursionError
          | Returned (Some reduced_body) => Returned (Some (Abs var reduced_body))
          | Returned None => Returned None
          end
      | App func arg =>
          match func with
          | Abs func_var func_body =>
              Returned (Some (substitute func_body func_var arg))
          | _ =>
              match beta_reduce_stack frames' func with
              | RecursionError => RecursionError
              | Returned (Some reduced_func) =>
                  Returned (Some (App reduced_func arg))
              | Returned None =>
                  match beta_reduce_stack frames' arg with
                  | RecursionError => RecursionError
                  | Returned (Some reduced_arg) =>
                      Returned (Some (App func reduced_arg))
                  | Returned None => Returned None
                  end
              end
          end
      end
  end.

Fixpoint normalize_stack_loop (frames remaining : nat) (current : LambdaTerm)
    : stack_result LambdaTerm :=
  match remaining with
  | O => Returned current
  | S remaining' =>
      match beta_reduce_stack frames current with
      | RecursionError => RecursionError
      | Returned None => Returned current
      | Returned (Some reduced) =>
          normalize_stack_loop frames remaining' reduced
      end
  end.

Definition normalize_stack (frames : nat) (term : LambdaTerm) (max_steps : Z)
    : stack_result LambdaTerm :=
  normalize_stack_loop frames (Z.to_nat max_steps) term.

Fixpoint reduction_steps_stack_loop (frames remaining : nat)
    (steps : list LambdaTerm) (current : LambdaTerm)
    : stack_result (list LambdaTerm) :=
  match remaining with
  | O => Returned steps
  | S remaining' =>
      match beta_reduce_stack frames current with
      | RecursionError => RecursionError
      | Returned None => Returned steps
      | Returned (Some reduced) =>
          reduction_steps_stack_loop frames remaining' (steps ++ [reduced])
            reduced
      end
  end.

Definition reduction_steps_stack (frames : nat) (term : LambdaTerm)
    (max_steps : Z) : stack_result (list LambdaTerm) :=
  reduction_steps_stack_loop frames (Z.to_nat max_steps) [term] term.

(** The default recursion limit of CPython. *)
Definition default_recursion_limit : nat := 1000.

(** The Y combinator after [j] beta steps: [λf. f (f ... (inner inner))]
    with [j] applications of [f]. *)
Definition Y_unfolded (j : nat) : LambdaTerm :=
  Abs "f" (Nat.iter j (App (Var "f")) (App Y_inner Y_inner)).


(** ** Sanity checks on concrete inputs *)

Example suffixed_y_12 : suffixed "y" 12 = "y_12".
Proof. reflexivity. Qed.

Example substitute_capture_example :
  substitute (Abs "y" (App (Var "x") (Var "y"))) "x" (Var "y")
  = Abs "y_1" (App (Var "y") (Var "y_1")).
Proof. vm_compute. reflexivity. Qed.

Example substitute_nested_capture_example :
  substitute (Abs "y" (Abs "y_1" (App (Var "y") (Var "y_1")))) "x" (Var "y")
  = Abs "y_1" (Abs "y_1_1" (App (Var "y_1") (Var "y_1_1"))).
Proof. vm_compute. reflexivity. Qed.

Example beta_reduce_omega : beta_reduce omega = Some omega.
Proof. vm_compute. reflexivity. Qed.

Example church_numeral_2 :
  church_numeral 2
  = Abs "f" (Abs "x" (App (Var "f") (App (Var "f") (Var "x")))).
Proof. reflexivity. Qed.

(** ** Structural equality *)

(** [__eq__] decides syntactic identity, so "structurally equal" is [=]. *)
Lemma term_eq_spec s t : term_eq s t = true ↔ s = t.
Proof.
  revert t. induction s as [name|var body IH|func IHf arg IHa]; intros t;
    destruct t as [name'|var' body'|func' arg']; simpl; try done.
  - rewrite bool_decide_eq_true. split; congruence.
  - rewrite andb_true_iff, bool_decide_eq_true, IH. naive_solver.
  - rewrite andb_true_iff, IHf, IHa. naive_solver.
Qed.

(** ** Fresh names: the search terminates and returns the least candidate *)

Section fresh_names.
Variable base : string.
Variable avoid : gset string.

Lemma suffixed_inj : Inj (=) (=) (suffixed base).
Proof.
  intros i j Hij. unfold suffixed in Hij.
  apply (inj (String.append base)) in Hij.
  apply (inj (String.append "_")) in Hij.
  by apply (inj pretty) in Hij.
Qed.

(** When the fuel runs out, every candidate tried was taken. *)
Lemma fresh_var_loop_None fuel counter :
  fresh_var_loop fuel base avoid counter = None →
  ∀ j, counter ≤ j < counter + fuel → suffixed base j ∈ avoid.
Proof.
  revert counter. induction fuel as [|fuel IH]; intros counter Hloop j Hj.
  - lia.
  - simpl in Hloop. case_decide as Hin; [|done].
    destruct (decide (j = counter)) as [->|Hne]; [done|].
    apply (IH (S counter)); [done|lia].
Qed.

(** A name that is returned is the first free candidate. *)
Lemma fresh_var_loop_Some fuel counter s :
  fresh_var_loop fuel base avoid counter = Some s →
  ∃ k, (counter ≤ k < counter + fuel) ∧ s = suffixed base k ∧
       (s ∉ avoid) ∧ (∀ j, counter ≤ j < k → suffixed base j ∈ avoid).
Proof.
  revert counter. induction fuel as [|fuel IH]; intros counter Hloop.
  - done.
  - simpl in Hloop. case_decide as Hin.
    + destruct (IH _ Hloop) as (k & Hk & -> & Hfree & Hbelow).
      exists k. split; [lia|]. split; [done|]. split; [done|].
      intros j Hj. destruct (decide (j = counter)) as [->|Hne]; [done|].
      apply Hbelow. lia.
    + injection Hloop as <-. exists counter.
      split; [lia|]. split; [done|]. split; [done|].
      intros j Hj. lia.
Qed.

(** More fuel does not change a result already found. *)
Lemma fresh_var_loop_mono fuel fuel' counter s :
  fresh_var_loop fuel base avoid counter = Some s → fuel ≤ fuel' →
  fresh_var_loop fuel' base avoid counter = Some s.
Proof.
  revert fuel' counter.
  induction fuel as [|fuel IH]; intros fuel' counter Hloop Hle; [done|].
  destruct fuel' as [|fuel']; [lia|].
  simpl in *. case_decide; [|done]. apply IH; [done|lia].
Qed.

(** Pigeonhole: a run of [n] consecutive candidates inside [avoid] is no
    longer than [avoid] is large. *)
Lemma taken_candidates_bound counter n :
  (∀ j, counter ≤ j < counter + n → suffixed base j ∈ avoid) →
  n ≤ size avoid.
Proof.
  intros Htaken.
  set (names := suffixed base <$> seq counter n).
  assert (NoDup names) as Hnodup.
  { pose proof suffixed_inj. apply (NoDup_fmap_2 _), NoDup_seq. }
  assert (list_to_set names ⊆ avoid) as Hsub.
  { intros s Hs. apply elem_of_list_to_set in Hs.
    apply list_elem_of_fmap in Hs as (j & -> & Hj).
    apply elem_of_seq in Hj. apply Htaken. lia. }
  apply subseteq_size in Hsub.
  rewrite size_list_to_set in Hsub by done.
  unfold names in Hsub. by rewrite length_fmap, length_seq in Hsub.
Qed.

(** [size avoid + 1] iterations are enough. *)
Lemma fresh_var_loop_enough :
  is_Some (fresh_var_loop (S (size avoid)) base avoid 1).
Proof.
  destruct (fresh_var_loop _ _ _ _) eqn:Hloop; [by eexists|].
  pose proof (fresh_var_loop_None _ _ Hloop) as Htaken.
  apply taken_candidates_bound in Htaken. lia.
Qed.

Lemma fresh_var_loop_fresh_var fuel s :
  fresh_var_loop fuel base avoid 1 = Some s → _fresh_var base avoid = s.
Proof.
  intros Hloop. unfold _fresh_var.
  destruct fresh_var_loop_enough as [s' Hs']. rewrite Hs'. simpl.
  destruct (decide (fuel ≤ S (size avoid))).
  - rewrite (fresh_var_loop_mono _ _ _ _ Hloop) in Hs' by done. congruence.
  - rewrite (fresh_var_loop_mono _ fuel _ _ Hs') in Hloop by lia. congruence.
Qed.

(** [_fresh_var] returns [base_k] for the least [k >= 1] whose name is
    not in [avoid]. *)
Lemma fresh_var_least :
  ∃ k, 1 ≤ k ∧ _fresh_var base avoid = suffixed base k ∧
       (suffixed base k ∉ avoid) ∧
       (∀ j, 1 ≤ j < k → suffixed base j ∈ avoid).
Proof.
  destruct fresh_var_loop_enough as [s Hs].
  pose proof (fresh_var_loop_fresh_var _ _ Hs) as Heq.
  apply fresh_var_loop_Some in Hs as (k & Hk & -> & Hfree & Hbelow).
  exists k. split; [lia|]. by repeat split.
Qed.

Lemma fresh_var_not_in : _fresh_var base avoid ∉ avoid.
Proof. destruct fresh_var_least as (k & _ & -> & Hfree & _). done. Qed.
End fresh_names.

(** ** Substitution: the recursion terminates, and its defining equations *)

Lemma term_size_pos t : 1 ≤ term_size t.
Proof. destruct t; simpl; lia. Qed.

(** Replacing a variable by a variable keeps the number of nodes; this is
    what bounds the second call in the capture branch. *)
Lemma substitute_fuel_Var_size fuel t x z t' :
  substitute_fuel fuel t x (Var z) = Some t' → term_size t' = term_size t.
Proof.
  revert t x z t'. induction fuel as [|fuel IH]; intros t x z t' Hsub; [done|].
  destruct t as [name|v b|f a]; simpl in Hsub.
  - case_decide; by simplify_eq.
  - case_decide; [by simplify_eq|]. case_decide.
    + apply fmap_Some in Hsub as (b' & Hb' & ->). simpl.
      by rewrite (IH _ _ _ _ Hb').
    + apply bind_Some in Hsub as (rb & Hrb & Hsub).
      apply fmap_Some in Hsub as (b' & Hb' & ->). simpl.
      by rewrite (IH _ _ _ _ Hb'), (IH _ _ _ _ Hrb).
  - apply bind_Some in Hsub as (f' & Hf' & Hsub).
    apply bind_Some in Hsub as (a' & Ha' & Hsub). simplify_eq. simpl.
    by rewrite (IH _ _ _ _ Hf'), (IH _ _ _ _ Ha').
Qed.

(** A depth of [term_size t] is enough for every replacement term. *)
Lemma substitute_fuel_enough fuel t x r :
  term_size t ≤ fuel → is_Some (substitute_fuel fuel t x r).
Proof.
  revert t x r. induction fuel as [|fuel IH]; intros t x r Hsize.
  - pose proof (term_size_pos t). lia.
  - destruct t as [name|v b|f a]; simpl in *.
    + case_decide; by eexists.
    + case_decide; [by eexists|]. case_decide.
      * destruct (IH b x r) as [b' ->]; [lia|]. by eexists.
      * set (fresh := _fresh_var _ _).
        destruct (IH b v (Var fresh)) as [rb Hrb]; [lia|].
        rewrite Hrb. simpl.
        destruct (IH rb x r) as [b' ->]; [|by eexists].
        rewrite (substitute_fuel_Var_size _ _ _ _ _ Hrb). lia.
    + destruct (IH f x r) as [f' ->]; [lia|].
      destruct (IH a x r) as [a' ->]; [lia|]. by eexists.
Qed.

(** A larger depth bound gives the same term. *)
Lemma substitute_fuel_mono fuel fuel' t x r t' :
  substitute_fuel fuel t x r = Some t' → fuel ≤ fuel' →
  substitute_fuel fuel' t x r = Some t'.
Proof.
  revert fuel' t x r t'.
  induction fuel as [|fuel IH]; intros fuel' t x r t' Hsub Hle; [done|].
  destruct fuel' as [|fuel']; [lia|].
  assert (fuel ≤ fuel') as Hle' by lia.
  destruct t as [name|v b|f a]; simpl in *.
  - done.
  - case_decide; [done|]. case_decide.
    + apply fmap_Some in Hsub as (b' & Hb' & ->).
      by rewrite (IH _ _ _ _ _ Hb' Hle').
    + apply bind_Some in Hsub as (rb & Hrb & Hsub).
      apply fmap_Some in Hsub as (b' & Hb' & ->).
      rewrite (IH _ _ _ _ _ Hrb Hle'). simpl.
      by rewrite (IH _ _ _ _ _ Hb' Hle').
  - apply bind_Some in Hsub as (f' & Hf' & Hsub).
    apply bind_Some in Hsub as (a' & Ha' & Hsub). simplify_eq.
    by rewrite (IH _ _ _ _ _ Hf' Hle'), (IH _ _ _ _ _ Ha' Hle').
Qed.

(** [substitute] is the result of the recursion at any sufficient depth. *)
Lemma substitute_fuel_substitute fuel t x r :
  term_size t ≤ fuel → substitute_fuel fuel t x r = Some (substitute t x r).
Proof.
  intros Hsize. unfold substitute.
  destruct (substitute_fuel_enough (term_size t) t x r) as [t' Ht']; [done|].
  rewrite Ht'. simpl. by apply (substitute_fuel_mono (term_size t)).
Qed.

Lemma substitute_Var_size t x z :
  term_size (substitute t x (Var z)) = term_size t.
Proof.
  apply (substitute_fuel_Var_size (term_size t) t x z).
  by apply substitute_fuel_substitute.
Qed.

(** The three [substitute] methods, as equations on [substitute]. *)
Lemma substitute_Var name x r :
  substitute (Var name) x r = if decide (name = x) then r else Var name.
Proof. unfold substitute. simpl. by case_decide. Qed.

Lemma substitute_App f a x r :
  substitute (App f a) x r = App (substitute f x r) (substitute a x r).
Proof.
  unfold substitute at 1. simpl.
  rewrite !substitute_fuel_substitute by lia. done.
Qed.

Lemma substitute_Abs v b x r :
  substitute (Abs v b) x r =
    if decide (v = x) then Abs v b
    else if decide (v ∉ free_vars r) then Abs v (substitute b x r)
    else
      let fresh_var := _fresh_var v (free_vars r ∪ free_vars b ∪ {[ x ]}) in
      Abs fresh_var (substitute (substitute b v (Var fresh_var)) x r).
Proof.
  unfold substitute at 1. simpl.
  case_decide; [done|]. case_decide.
  - by rewrite substitute_fuel_substitute by lia.
  - rewrite substitute_fuel_substitute by lia. simpl.
    rewrite substitute_fuel_substitute; [done|].
    rewrite substitute_Var_size. lia.
Qed.

(** ** Free variables of a substitution *)

(** The free variables of [t[x := r]] are those of [t] without [x], plus
    those of [r] when [x] occurs free in [t].  By induction on the size of
    [t], because the capture branch recurses on a renamed body. *)
Lemma free_vars_substitute_size n :
  ∀ t, term_size t ≤ n → ∀ x r,
    free_vars (substitute t x r) =
      (free_vars t ∖ {[ x ]}) ∪
      (if decide (x ∈ free_vars t) then free_vars r else ∅).
Proof.
  induction n as [|n IH]; intros t Hsize x r.
  - pose proof (term_size_pos t). lia.
  - destruct t as [name|v b|f a]; simpl in Hsize.
    + rewrite substitute_Var. simpl. clear IH.
      repeat case_decide; set_solver.
    + rewrite substitute_Abs. case_decide as Hvx.
      * subst. simpl. case_decide; set_solver.
      * case_decide as Hfree.
        -- simpl. rewrite IH by lia. clear IH.
           repeat case_decide; set_solver.
        -- simpl.
           pose proof (fresh_var_not_in v
             (free_vars r ∪ free_vars b ∪ {[ x ]})) as Hfresh.
           set (fresh := _fresh_var v _) in *.
           rewrite IH by (rewrite substitute_Var_size; lia).
           rewrite (IH b) by lia. simpl. clear IH.
           repeat case_decide; set_solver.
    + rewrite substitute_App. simpl. rewrite !IH by lia. clear IH.
      repeat case_decide; set_solver.
Qed.

Lemma free_vars_substitute t x r :
  free_vars (substitute t x r) =
    (free_vars t ∖ {[ x ]}) ∪
    (if decide (x ∈ free_vars t) then free_vars r else ∅).
Proof. by apply (free_vars_substitute_size (term_size t)). Qed.

(** ** The bounded loops of [normalize] and [reduction_steps] *)

Lemma normalize_loop_normal remaining t :
  beta_reduce t = None → normalize_loop remaining t = t.
Proof. intros Hnf. destruct remaining; simpl; by rewrite ?Hnf. Qed.

(** The trace only grows, by at most one entry per iteration. *)
Lemma reduction_steps_loop_length remaining steps current :
  length steps ≤ length (reduction_steps_loop remaining steps current)
  ≤ length steps + remaining.
Proof.
  revert steps current.
  induction remaining as [|n IH]; intros steps current; simpl; [lia|].
  destruct (beta_reduce current) as [reduced|]; [|lia].
  specialize (IH (steps ++ [reduced]) reduced).
  rewrite length_app in IH. simpl in IH. lia.
Qed.

(** The first entry is never touched. *)
Lemma reduction_steps_loop_head remaining t steps current :
  head (reduction_steps_loop remaining (t :: steps) current) = Some t.
Proof.
  revert steps current.
  induction remaining as [|n IH]; intros steps current; simpl; [done|].
  destruct (beta_reduce current) as [reduced|]; [|done].
  apply (IH (steps ++ [reduced])).
Qed.

(** Loop invariant shared with [normalize]: the last entry of the trace is
    the current term. *)
Lemma reduction_steps_loop_last remaining steps current :
  last steps = Some current →
  last (reduction_steps_loop remaining steps current)
  = Some (normalize_loop remaining current).
Proof.
  revert steps current.
  induction remaining as [|n IH]; intros steps current Hlast; simpl; [done|].
  destruct (beta_reduce current) as [reduced|]; [|done].
  apply IH. by rewrite last_snoc.
Qed.

(** The loop stops short of the bound only at a normal form. *)
Lemma reduction_steps_loop_full_or_normal remaining steps current :
  length (reduction_steps_loop remaining steps current)
    = length steps + remaining
  ∨ is_normal_form (normalize_loop remaining current) = true.
Proof.
  revert steps current.
  induction remaining as [|n IH]; intros steps current; simpl; [left; lia|].
  unfold is_normal_form.
  destruct (beta_reduce current) as [reduced|] eqn:Hred.
  - destruct (IH (steps ++ [reduced]) reduced) as [Hlen|Hnf]; [left|by right].
    rewrite Hlen, length_app. simpl. lia.
  - right. by rewrite Hred.
Qed.

Lemma reduction_steps_loop_omega remaining steps :
  reduction_steps_loop remaining steps omega
  = steps ++ replicate remaining omega.
Proof.
  revert steps. induction remaining as [|n IH]; intros steps.
  - simpl. by rewrite app_nil_r.
  - cbn [reduction_steps_loop replicate]. rewrite beta_reduce_omega, IH.
    by rewrite <- app_assoc.
Qed.

Lemma normalize_loop_omega remaining : normalize_loop remaining omega = omega.
Proof.
  induction remaining as [|n IH]; [done|].
  cbn [normalize_loop]. by rewrite beta_reduce_omega.
Qed.

(** ** Substitution and capture avoidance *)

(** C1.  Renaming case of capture-avoiding substitution: when the bound
    name of an abstraction differs from the target and occurs free in the
    replacement, [substitute] renames the binder to [bound_name_k] for the
    least [k >= 1] whose name is outside
    [free_vars replacement ∪ free_vars body ∪ {target_name}], replaces the
    old bound name by that fresh variable in the body, and then substitutes
    the target in the renamed body.  In particular, substituting
    [x := Var y] in [Abs y (App (Var x) (Var y))] gives an abstraction whose
    bound name is not [y] and whose free variables are exactly [{y}]. *)
Theorem substitute_capture_renames :
  (∀ bound_name body target_name replacement,
     bound_name ≠ target_name →
     bound_name ∈ free_vars replacement →
     ∃ k fresh_name,
       1 ≤ k ∧ fresh_name = suffixed bound_name k ∧
       (fresh_name ∉
          free_vars replacement ∪ free_vars body ∪ {[ target_name ]}) ∧
       (∀ j, 1 ≤ j < k →
          suffixed bound_name j ∈
            free_vars replacement ∪ free_vars body ∪ {[ target_name ]}) ∧
       substitute (Abs bound_name body) target_name replacement =
         Abs fresh_name
           (substitute (substitute body bound_name (Var fresh_name))
              target_name replacement))
  ∧ (∃ bound body,
       substitute (Abs "y" (App (Var "x") (Var "y"))) "x" (Var "y")
         = Abs bound body ∧
       bound ≠ "y" ∧ free_vars (Abs bound body) = {[ "y" ]}).
Proof.
  split.
  - intros bound_name body target_name replacement Hne Hin.
    destruct (fresh_var_least bound_name
      (free_vars replacement ∪ free_vars body ∪ {[ target_name ]}))
      as (k & Hk & Hfresh & Hfree & Hleast).
    exists k, (suffixed bound_name k).
    split; [done|]. split; [done|]. split; [done|]. split; [done|].
    rewrite substitute_Abs.
    destruct (decide (bound_name = target_name)) as [|_]; [done|].
    destruct (decide (bound_name ∉ free_vars replacement)) as [|_]; [done|].
    simpl. by rewrite Hfresh.
  - exists "y_1", (App (Var "y") (Var "y_1")).
    split; [vm_compute; reflexivity|]. split; [done|].
    vm_compute. reflexivity.
Qed.

Lemma substitute_capture_renames_witness :
  "y" ≠ "x" ∧ "y" ∈ free_vars (Var "y") ∧
  ∃ k fresh_name,
    1 ≤ k ∧ fresh_name = suffixed "y" k ∧
    (fresh_name ∉
       free_vars (Var "y") ∪ free_vars (App (Var "x") (Var "y")) ∪ {[ "x" ]}) ∧
    (∀ j, 1 ≤ j < k →
       suffixed "y" j ∈
         free_vars (Var "y") ∪ free_vars (App (Var "x") (Var "y")) ∪ {[ "x" ]}) ∧
    substitute (Abs "y" (App (Var "x") (Var "y"))) "x" (Var "y") =
      Abs fresh_name
        (substitute (substitute (App (Var "x") (Var "y")) "y" (Var fresh_name))
           "x" (Var "y")).
Proof.
  assert ("y" ≠ "x") as Hne by discriminate.
  assert ("y" ∈ free_vars (Var "y")) as Hin
    by (apply (bool_decide_unpack _); vm_compute; exact I).
  split; [exact Hne|]. split; [exact Hin|].
  exact (proj1 substitute_capture_renames "y" (App (Var "x") (Var "y"))
           "x" (Var "y") Hne Hin).
Defined.

(** C10.  Substitution introduces no free variable beyond those of the
    replacement: [free_vars (substitute t x r)] is included in
    [(free_vars t ∖ {x}) ∪ free_vars r]. *)
Theorem free_vars_substitute_subseteq t x r :
  free_vars (substitute t x r) ⊆ (free_vars t ∖ {[ x ]}) ∪ free_vars r.
Proof.
  rewrite free_vars_substitute. case_decide; set_solver.
Qed.

(** ** Alpha-conversion *)

Lemma alpha_convert_Abs x body new_var :
  alpha_convert (Abs x body) new_var
  = inr (Abs new_var (substitute body x (Var new_var))).
Proof. reflexivity. Qed.

(** C7.  Alpha-conversion preserves the free-variable set: when the new
    name is not among the free variables of [Abs x body], the converted
    abstraction has the same free variables as [Abs x body]. *)
Theorem alpha_convert_free_vars x body fresh :
  fresh ∉ free_vars (Abs x body) →
  ∃ converted,
    alpha_convert (Abs x body) fresh = inr converted ∧
    free_vars converted = free_vars (Abs x body).
Proof.
  intros Hfresh. eexists. split; [apply alpha_convert_Abs|].
  simpl in *. rewrite free_vars_substitute. simpl.
  case_decide; set_solver.
Qed.

Lemma alpha_convert_free_vars_witness :
  ("z" ∉ free_vars (Abs "x" (App (Var "x") (Var "y")))) ∧
  ∃ converted,
    alpha_convert (Abs "x" (App (Var "x") (Var "y"))) "z" = inr converted ∧
    free_vars converted = free_vars (Abs "x" (App (Var "x") (Var "y"))).
Proof.
  assert ("z" ∉ free_vars (Abs "x" (App (Var "x") (Var "y")))) as Hfresh
    by (apply (bool_decide_unpack _); vm_compute; exact I).
  split; [exact Hfresh|].
  exact (alpha_convert_free_vars "x" (App (Var "x") (Var "y")) "z" Hfresh).
Defined.

(** The side condition is needed: a new name that is already free in the
    abstraction is captured by the new binder. *)
Lemma alpha_convert_free_vars_collision x body fresh :
  fresh ∈ free_vars (Abs x body) →
  ∃ converted,
    alpha_convert (Abs x body) fresh = inr converted ∧
    free_vars converted = free_vars (Abs x body) ∖ {[ fresh ]}.
Proof.
  intros Hfresh. eexists. split; [apply alpha_convert_Abs|].
  simpl in *. rewrite free_vars_substitute. simpl.
  case_decide; set_solver.
Qed.

(** C8.  Contract violation: [alpha_convert] on a term that is not an
    abstraction does not return a term; the call is rejected with an
    [AttributeError] raised by the read of the missing [body] field. *)
Theorem alpha_convert_rejects_non_abstraction term new_var :
  (∀ var body, term ≠ Abs var body) →
  alpha_convert term new_var = inl AttributeError.
Proof.
  intros Hshape. destruct term as [name|var body|func arg]; [done| |done].
  by destruct (Hshape var body).
Qed.

Lemma alpha_convert_rejects_non_abstraction_witness :
  (∀ var body, Var "x" ≠ Abs var body) ∧
  alpha_convert (Var "x") "y" = inl AttributeError ∧
  alpha_convert (App (Var "f") (Var "x")) "y" = inl AttributeError.
Proof.
  split; [intros var body; discriminate|]. split.
  - apply alpha_convert_rejects_non_abstraction. intros var body. discriminate.
  - apply alpha_convert_rejects_non_abstraction. intros var body. discriminate.
Defined.

(** ** Eta-conversion *)

(** C6.  Eta-conversion is a test on the outermost shape: [eta_convert t]
    returns [f] exactly when [t] is [Abs x (App f (Var x))] with [x] not
    free in [f], and is not applicable to every other term, among them
    [Abs x (App (Var x) (Var x))]; an eta-redex below the root is not
    looked for. *)
Theorem eta_convert_outermost_pattern :
  (∀ t f,
     eta_convert t = Some f ↔
     ∃ x, t = Abs x (App f (Var x)) ∧ x ∉ free_vars f)
  ∧ (∀ t,
     eta_convert t = None ↔
     ¬ ∃ x f, t = Abs x (App f (Var x)) ∧ x ∉ free_vars f)
  ∧ (∀ x, eta_convert (Abs x (App (Var x) (Var x))) = None)
  ∧ eta_convert (Abs "x" (App (Var "f") (Var "x"))) = Some (Var "f")
  ∧ (∀ z x f, eta_convert (Abs z (Abs x (App f (Var x)))) = None)
  ∧ (∀ x f a, eta_convert (App (Abs x (App f (Var x))) a) = None)
  ∧ (∀ x f a, eta_convert (App a (Abs x (App f (Var x)))) = None).
Proof.
  assert (∀ t f,
     eta_convert t = Some f ↔
     ∃ x, t = Abs x (App f (Var x)) ∧ x ∉ free_vars f) as Hsome.
  { intros t f. split.
    - destruct t as [|var [|?|func [name| |]]|]; simpl; try done.
      case_decide; [|done]. case_decide; [|done].
      intros [= ->]. subst. by exists var.
    - intros (x & -> & Hfree). simpl.
      rewrite decide_True by done. by rewrite decide_True by done. }
  split; [exact Hsome|]. split.
  { intros t. split.
    - intros Hnone (x & f & Ht & Hfree).
      assert (eta_convert t = Some f) as Heq by (apply Hsome; eauto).
      congruence.
    - intros Hshape. destruct (eta_convert t) as [f|] eqn:Heta; [|done].
      apply Hsome in Heta as (x & Ht & Hfree). destruct Hshape. eauto. }
  split.
  { intros x. simpl. rewrite decide_True by done.
    rewrite decide_False; [done|]. set_solver. }
  split; [vm_compute; reflexivity|]. by repeat split.
Qed.

(** ** Beta-reduction and normalization *)

(** C2.  One step of beta-reduction takes the leftmost-outermost redex: a
    variable does not reduce; an application whose function is an
    abstraction is contracted at once, whatever its subterms contain; any
    other application reduces in its function if that reduces, otherwise
    in its argument, otherwise not at all; an abstraction reduces in its
    body or not at all. *)
Theorem beta_reduce_leftmost_outermost :
  (∀ name, beta_reduce (Var name) = None)
  ∧ (∀ bound body argument,
       beta_reduce (App (Abs bound body) argument)
       = Some (substitute body bound argument))
  ∧ (∀ function argument,
       (∀ bound body, function ≠ Abs bound body) →
       beta_reduce (App function argument) =
         match beta_reduce function with
         | Some reduced_function => Some (App reduced_function argument)
         | None =>
             match beta_reduce argument with
             | Some reduced_argument => Some (App function reduced_argument)
             | None => None
             end
         end)
  ∧ (∀ bound body,
       beta_reduce (Abs bound body) =
         match beta_reduce body with
         | Some reduced_body => Some (Abs bound reduced_body)
         | None => None
         end).
Proof.
  split; [done|]. split; [done|]. split; [|done].
  intros function argument Hshape.
  destruct function as [name|bound body|f a]; [done| |done].
  by destruct (Hshape bound body).
Qed.

(** The function position is tried before the argument position. *)
Lemma beta_reduce_leftmost_outermost_witness :
  (∀ bound body,
     App (Var "g") (App (Abs "x" (Var "x")) (Var "a")) ≠ Abs bound body) ∧
  beta_reduce
    (App (App (Var "g") (App (Abs "x" (Var "x")) (Var "a")))
         (App (Abs "x" (Var "x")) (Var "b")))
  = Some (App (App (Var "g") (Var "a")) (App (Abs "x" (Var "x")) (Var "b"))).
Proof.
  assert (∀ bound body,
     App (Var "g") (App (Abs "x" (Var "x")) (Var "a")) ≠ Abs bound body)
    as Hshape by (intros bound body; discriminate).
  split; [exact Hshape|].
  rewrite (proj1 (proj2 (proj2 beta_reduce_leftmost_outermost)) _ _ Hshape).
  vm_compute. reflexivity.
Defined.

(** C4.  Normal forms are fixed points: if [is_normal_form t] then
    [beta_reduce t] reports no reduction and [normalize t k] is [t] for
    every bound [k]; and [is_normal_form t] holds exactly when
    [beta_reduce t] reports no reduction. *)
Theorem normal_form_idempotent :
  (∀ t k,
     is_normal_form t = true →
     beta_reduce t = None ∧ normalize t k = t)
  ∧ (∀ t, is_normal_form t = true ↔ beta_reduce t = None).
Proof.
  assert (∀ t, is_normal_form t = true ↔ beta_reduce t = None) as Hiff.
  { intros t. unfold is_normal_form. by destruct (beta_reduce t). }
  split; [|exact Hiff].
  intros t k Hnf. apply Hiff in Hnf. split; [done|].
  by apply normalize_loop_normal.
Qed.

Lemma normal_form_idempotent_witness :
  is_normal_form (Abs "x" (App (Var "x") (Var "y"))) = true ∧
  beta_reduce (Abs "x" (App (Var "x") (Var "y"))) = None ∧
  normalize (Abs "x" (App (Var "x") (Var "y"))) 5
  = Abs "x" (App (Var "x") (Var "y")).
Proof.
  assert (is_normal_form (Abs "x" (App (Var "x") (Var "y"))) = true) as Hnf
    by reflexivity.
  split; [exact Hnf|].
  exact (proj1 normal_form_idempotent _ 5%Z Hnf).
Defined.

(** X27.  The omega term reduces to itself: it has one redex, is not a
    normal form, and for every bound its trace is omega repeated
    [max_steps + 1] times and [normalize] returns omega.  For every term
    the trace has at most [max_steps + 1] entries, and fewer only when
    [normalize] ends on a normal form. *)
Theorem omega_containment :
  count_redexes omega = 1
  ∧ is_normal_form omega = false
  ∧ reduction_steps omega 3 = [omega; omega; omega; omega]
  ∧ (∀ k, reduction_steps omega k = replicate (Z.to_nat k + 1) omega
          ∧ normalize omega k = omega)
  ∧ (∀ t k, length (reduction_steps t k) ≤ Z.to_nat k + 1)
  ∧ (∀ t k, length (reduction_steps t k) = Z.to_nat k + 1
            ∨ is_normal_form (normalize t k) = true).
Proof.
  split; [reflexivity|]. split; [vm_compute; reflexivity|].
  split; [vm_compute; reflexivity|]. split; [|split].
  - intros k. split; [|apply normalize_loop_omega].
    unfold reduction_steps. rewrite reduction_steps_loop_omega.
    by rewrite Nat.add_1_r.
  - intros t k. unfold reduction_steps.
    pose proof (reduction_steps_loop_length (Z.to_nat k) [t] t) as Hlen.
    simpl in Hlen. lia.
  - intros t k. unfold reduction_steps, normalize.
    destruct (reduction_steps_loop_full_or_normal (Z.to_nat k) [t] t)
      as [Hlen|Hnf]; [left|by right].
    simpl in Hlen. lia.
Qed.

(** C9.  [normalize] and [reduction_steps] agree: for every bound
    [k >= 0], [normalize t k] is the last entry of [reduction_steps t k],
    and the trace starts with [t] and has between [1] and [k + 1]
    entries. *)
Theorem normalize_last_reduction_steps t (k : Z) :
  (0 ≤ k)%Z →
  last (reduction_steps t k) = Some (normalize t k)
  ∧ head (reduction_steps t k) = Some t
  ∧ (1 ≤ Z.of_nat (length (reduction_steps t k)) ≤ k + 1)%Z.
Proof.
  intros Hk. unfold reduction_steps, normalize. split; [|split].
  - by apply reduction_steps_loop_last.
  - apply reduction_steps_loop_head.
  - pose proof (reduction_steps_loop_length (Z.to_nat k) [t] t) as Hlen.
    simpl in Hlen. lia.
Qed.

Lemma normalize_last_reduction_steps_witness :
  (0 ≤ 3)%Z ∧
  last (reduction_steps omega 3) = Some (normalize omega 3)
  ∧ head (reduction_steps omega 3) = Some omega
  ∧ (1 ≤ Z.of_nat (length (reduction_steps omega 3)) ≤ 3 + 1)%Z.
Proof.
  assert (0 ≤ 3)%Z as Hk by lia.
  split; [exact Hk|]. exact (normalize_last_reduction_steps omega 3 Hk).
Defined.

(** ** Church arithmetic *)

(** C5.  Church arithmetic normalizes to the canonical numerals, with the
    bound [normalize] uses when none is given: successor of 2 is 3, 1 plus
    2 is 3, and 2 times 3 is 6. *)
Theorem church_arithmetic :
  normalize (App church_succ (church_numeral 2)) default_max_steps
  = church_numeral 3
  ∧ normalize (App (App church_add (church_numeral 1)) (church_numeral 2))
      default_max_steps
    = church_numeral 3
  ∧ normalize (App (App church_mult (church_numeral 2)) (church_numeral 3))
      default_max_steps
    = church_numeral 6.
Proof. repeat split; vm_compute; reflexivity. Qed.

(** ** Further properties of substitution *)

(** X1.  The free variables of [substitute t x r] are exactly those of [t]
    other than [x], together with those of [r] when [x] occurs free in
    [t]: no free variable of the replacement is captured and none is
    lost. *)
Theorem free_vars_substitute_exact t x r :
  free_vars (substitute t x r) =
    (free_vars t ∖ {[ x ]}) ∪
    (if decide (x ∈ free_vars t) then free_vars r else ∅).
Proof. apply free_vars_substitute. Qed.

Lemma substitute_self_id t x : substitute t x (Var x) = t.
Proof.
  induction t as [name|v b IH|f IHf a IHa].
  - rewrite substitute_Var. by case_decide; subst.
  - rewrite substitute_Abs. case_decide; [done|].
    rewrite decide_True by (simpl; set_solver). by rewrite IH.
  - by rewrite substitute_App, IHf, IHa.
Qed.

(** X2.  Replacing a variable by itself returns the term unchanged,
    binders included; so alpha-converting an abstraction to the name it
    already binds returns the same abstraction. *)
Theorem substitute_variable_by_itself :
  (∀ t x, substitute t x (Var x) = t)
  ∧ (∀ x body, alpha_convert (Abs x body) x = inr (Abs x body)).
Proof.
  split; [apply substitute_self_id|].
  intros x body. by rewrite alpha_convert_Abs, substitute_self_id.
Qed.

Lemma substitute_closed_Abs v b x r :
  free_vars r = ∅ → v ≠ x →
  substitute (Abs v b) x r = Abs v (substitute b x r).
Proof.
  intros Hclosed Hne. rewrite substitute_Abs.
  rewrite decide_False by done. rewrite decide_True; [done|].
  rewrite Hclosed. set_solver.
Qed.

Lemma substitute_absent_closed_id t x r :
  x ∉ free_vars t → free_vars r = ∅ → substitute t x r = t.
Proof.
  intros Hx Hclosed. induction t as [name|v b IH|f IHf a IHa]; simpl in Hx.
  - rewrite substitute_Var. rewrite decide_False; [done|]. set_solver.
  - destruct (decide (v = x)) as [->|Hne].
    + rewrite substitute_Abs. by rewrite decide_True.
    + rewrite substitute_closed_Abs by done. rewrite IH; [done|]. set_solver.
  - rewrite substitute_App, IHf, IHa; [done|set_solver|set_solver].
Qed.

(** X3.  With a closed replacement no binder is ever renamed, so a term in
    which the target is not free is returned unchanged. *)
Theorem substitute_absent_closed t x r :
  x ∉ free_vars t → free_vars r = ∅ → substitute t x r = t.
Proof. apply substitute_absent_closed_id. Qed.

Lemma substitute_absent_closed_witness :
  ("n" ∉ free_vars church_true) ∧ free_vars (church_numeral 2) = ∅ ∧
  substitute church_true "n" (church_numeral 2) = church_true.
Proof.
  assert ("n" ∉ free_vars church_true) as Hx
    by (apply (bool_decide_unpack _); vm_compute; exact I).
  assert (free_vars (church_numeral 2) = ∅) as Hclosed
    by (vm_compute; reflexivity).
  split; [exact Hx|]. split; [exact Hclosed|].
  exact (substitute_absent_closed _ _ _ Hx Hclosed).
Defined.

(** The replacement of a variable by a variable keeps variables variables,
    abstractions abstractions and applications applications. *)
Lemma substitute_Var_is_Abs t x z :
  is_Abs (substitute t x (Var z)) = is_Abs t.
Proof.
  destruct t as [name|v b|f a].
  - rewrite substitute_Var. by case_decide.
  - rewrite substitute_Abs. by repeat case_decide.
  - by rewrite substitute_App.
Qed.

Lemma count_redexes_App f a :
  count_redexes (App f a) =
    count_redexes f + count_redexes a + (if is_Abs f then 1 else 0).
Proof. destruct f; simpl; lia. Qed.

Lemma count_redexes_substitute_Var_size n :
  ∀ t, term_size t ≤ n → ∀ x z,
    count_redexes (substitute t x (Var z)) = count_redexes t.
Proof.
  induction n as [|n IH]; intros t Hsize x z.
  - pose proof (term_size_pos t). lia.
  - destruct t as [name|v b|f a]; simpl in Hsize.
    + rewrite substitute_Var. by case_decide.
    + rewrite substitute_Abs. repeat case_decide; simpl; [done| |].
      * apply IH. lia.
      * rewrite IH by (rewrite substitute_Var_size; lia). apply IH. lia.
    + rewrite substitute_App, !count_redexes_App, !IH by lia.
      by rewrite substitute_Var_is_Abs.
Qed.

(** X4.  Renaming keeps the shape of a term: replacing a variable by a
    variable changes neither the number of nodes nor the number of
    redexes, and so alpha-conversion of an abstraction keeps its size and
    its redex count. *)
Theorem renaming_preserves_shape :
  (∀ t x z,
     term_size (substitute t x (Var z)) = term_size t ∧
     count_redexes (substitute t x (Var z)) = count_redexes t)
  ∧ (∀ x body new_var,
       ∃ converted,
         alpha_convert (Abs x body) new_var = inr converted ∧
         term_size converted = term_size (Abs x body) ∧
         count_redexes converted = count_redexes (Abs x body)).
Proof.
  assert (∀ t x z,
     term_size (substitute t x (Var z)) = term_size t ∧
     count_redexes (substitute t x (Var z)) = count_redexes t) as Hren.
  { intros t x z. split; [apply substitute_Var_size|].
    by apply (count_redexes_substitute_Var_size (term_size t)). }
  split; [exact Hren|].
  intros x body new_var. eexists. split; [apply alpha_convert_Abs|].
  simpl. destruct (Hren body x new_var) as [-> ->]. done.
Qed.

(** ** Redexes and normal forms *)

Lemma beta_reduce_None_count t :
  beta_reduce t = None ↔ count_redexes t = 0.
Proof.
  induction t as [name|v b IH|f IHf a IHa]; simpl.
  - done.
  - rewrite <- IH. by destruct (beta_reduce b).
  - destruct f as [name|v b|f1 f2].
    + rewrite <- IHa. simpl. by destruct (beta_reduce a).
    + split; [done|lia].
    + destruct (beta_reduce (App f1 f2)) as [rf|] eqn:Hf.
      * split; [done|]. intros Hcount.
        assert (count_redexes (App f1 f2) = 0) as Hzero by lia.
        apply IHf in Hzero. done.
      * assert (count_redexes (App f1 f2) = 0) as -> by by apply IHf.
        rewrite <- IHa. simpl. by destruct (beta_reduce a).
Qed.

(** X5.  [is_normal_form] and [count_redexes] agree: a term is a normal
    form exactly when it contains no redex. *)
Theorem is_normal_form_iff_no_redex t :
  is_normal_form t = true ↔ count_redexes t = 0.
Proof.
  rewrite <- beta_reduce_None_count. unfold is_normal_form.
  by destruct (beta_reduce t).
Qed.

(** X6.  A redex needs an application node and an abstraction node of its
    own, so twice the redex count is below the number of nodes. *)
Theorem count_redexes_bound t : 2 * count_redexes t < term_size t.
Proof.
  induction t as [name|v b IH|f IHf a IHa]; simpl.
  - lia.
  - lia.
  - destruct f as [name|v b|f1 f2]; simpl in *; lia.
Qed.

(** ** Reduction keeps terms well scoped *)

Lemma beta_reduce_App_other f a :
  is_Abs f = false →
  beta_reduce (App f a) =
    match beta_reduce f with
    | Some reduced_func => Some (App reduced_func a)
    | None =>
        match beta_reduce a with
        | Some reduced_arg => Some (App f reduced_arg)
        | None => None
        end
    end.
Proof. by destruct f. Qed.

Lemma beta_reduce_free_vars t t' :
  beta_reduce t = Some t' → free_vars t' ⊆ free_vars t.
Proof.
  revert t'. induction t as [name|v b IH|f IHf a IHa]; intros t' Hred.
  - done.
  - simpl in Hred. destruct (beta_reduce b) as [rb|]; [|done].
    injection Hred as <-. simpl. specialize (IH rb eq_refl). set_solver.
  - destruct (is_Abs f) eqn:Hf.
    + destruct f as [|v b|]; try done. simpl in Hred. injection Hred as <-.
      rewrite free_vars_substitute. simpl. case_decide; set_solver.
    + rewrite beta_reduce_App_other in Hred by done.
      destruct (beta_reduce f) as [rf|].
      * injection Hred as <-. specialize (IHf rf eq_refl). simpl. set_solver.
      * destruct (beta_reduce a) as [ra|]; [|done].
        injection Hred as <-. specialize (IHa ra eq_refl). simpl. set_solver.
Qed.

Lemma normalize_loop_free_vars remaining t :
  free_vars (normalize_loop remaining t) ⊆ free_vars t.
Proof.
  revert t. induction remaining as [|n IH]; intros t; simpl; [done|].
  destruct (beta_reduce t) as [reduced|] eqn:Hred; [|done].
  apply beta_reduce_free_vars in Hred. specialize (IH reduced). set_solver.
Qed.

Lemma reduction_steps_loop_reducts remaining steps current :
  reduction_steps_loop remaining steps current
  = steps ++ reducts remaining current.
Proof.
  revert steps current.
  induction remaining as [|n IH]; intros steps current; simpl.
  - by rewrite app_nil_r.
  - destruct (beta_reduce current) as [reduced|]; [|by rewrite app_nil_r].
    by rewrite IH, <- app_assoc.
Qed.

Lemma reduction_steps_reducts t k :
  reduction_steps t k = t :: reducts (Z.to_nat k) t.
Proof. unfold reduction_steps. by rewrite reduction_steps_loop_reducts. Qed.

Lemma reducts_free_vars remaining t :
  Forall (λ s, free_vars s ⊆ free_vars t) (reducts remaining t).
Proof.
  revert t. induction remaining as [|n IH]; intros t; simpl; [done|].
  destruct (beta_reduce t) as [reduced|] eqn:Hred; [|done].
  apply beta_reduce_free_vars in Hred. constructor; [done|].
  eapply Forall_impl; [apply IH|]. simpl. intros s Hs. set_solver.
Qed.

(** X7.  Reduction never introduces a free variable: a beta step, the
    result of [normalize] and every entry of [reduction_steps] have their
    free variables among those of the starting term; closed terms stay
    closed. *)
Theorem reduction_keeps_free_vars t k :
  (∀ t', beta_reduce t = Some t' → free_vars t' ⊆ free_vars t)
  ∧ free_vars (normalize t k) ⊆ free_vars t
  ∧ Forall (λ s, free_vars s ⊆ free_vars t) (reduction_steps t k).
Proof.
  split; [apply beta_reduce_free_vars|]. split.
  - apply normalize_loop_free_vars.
  - rewrite reduction_steps_reducts. constructor; [done|].
    apply reducts_free_vars.
Qed.

Lemma reduction_keeps_free_vars_witness :
  beta_reduce (App (Abs "x" (App (Var "x") (Var "y"))) (Var "z"))
    = Some (App (Var "z") (Var "y")) ∧
  free_vars (App (Var "z") (Var "y"))
    ⊆ free_vars (App (Abs "x" (App (Var "x") (Var "y"))) (Var "z")).
Proof.
  assert (beta_reduce (App (Abs "x" (App (Var "x") (Var "y"))) (Var "z"))
    = Some (App (Var "z") (Var "y"))) as Hred by (vm_compute; reflexivity).
  split; [exact Hred|].
  exact (proj1 (reduction_keeps_free_vars _ 0%Z) _ Hred).
Defined.

(** ** Traces *)

Lemma reducts_chain remaining t i s s' :
  (t :: reducts remaining t) !! i = Some s →
  (t :: reducts remaining t) !! S i = Some s' →
  beta_reduce s = Some s'.
Proof.
  revert t i. induction remaining as [|n IH]; intros t i Hs Hs'.
  - simpl in Hs'. by rewrite lookup_nil in Hs'.
  - cbn [reducts] in Hs, Hs'.
    destruct (beta_reduce t) as [reduced|] eqn:Hred.
    + destruct i as [|i].
      * simpl in Hs, Hs'. by simplify_eq.
      * apply (IH reduced i); done.
    + simpl in Hs'. by rewrite lookup_nil in Hs'.
Qed.

Lemma reducts_prefix n m t : reducts n t `prefix_of` reducts (n + m) t.
Proof.
  revert t. induction n as [|n IH]; intros t; simpl.
  - apply prefix_nil.
  - destruct (beta_reduce t) as [reduced|]; [|done].
    apply prefix_cons, IH.
Qed.

(** X8.  The list returned by [reduction_steps] is a reduction sequence:
    each entry after the first is the one-step reduct of the entry before
    it, so every entry but the last is reducible. *)
Theorem reduction_steps_chain t k i s s' :
  reduction_steps t k !! i = Some s →
  reduction_steps t k !! S i = Some s' →
  beta_reduce s = Some s'.
Proof. rewrite reduction_steps_reducts. apply reducts_chain. Qed.

Lemma reduction_steps_chain_witness :
  reduction_steps (App (Abs "x" (Var "x")) (Var "a")) 5 !! 0
    = Some (App (Abs "x" (Var "x")) (Var "a")) ∧
  reduction_steps (App (Abs "x" (Var "x")) (Var "a")) 5 !! 1
    = Some (Var "a") ∧
  beta_reduce (App (Abs "x" (Var "x")) (Var "a")) = Some (Var "a").
Proof.
  assert (reduction_steps (App (Abs "x" (Var "x")) (Var "a")) 5 !! 0
    = Some (App (Abs "x" (Var "x")) (Var "a"))) as H0
    by (vm_compute; reflexivity).
  assert (reduction_steps (App (Abs "x" (Var "x")) (Var "a")) 5 !! 1
    = Some (Var "a")) as H1 by (vm_compute; reflexivity).
  split; [exact H0|]. split; [exact H1|].
  exact (reduction_steps_chain _ _ _ _ _ H0 H1).
Defined.

(** X9.  Raising the bound only extends the trace: the trace for a bound
    is a prefix of the trace for any larger bound. *)
Theorem reduction_steps_prefix t (k k' : Z) :
  (k ≤ k')%Z → reduction_steps t k `prefix_of` reduction_steps t k'.
Proof.
  intros Hle. rewrite !reduction_steps_reducts. apply prefix_cons.
  replace (Z.to_nat k') with (Z.to_nat k + (Z.to_nat k' - Z.to_nat k))
    by lia.
  apply reducts_prefix.
Qed.

Lemma reduction_steps_prefix_witness :
  (2 ≤ 7)%Z ∧ reduction_steps omega 2 `prefix_of` reduction_steps omega 7.
Proof.
  assert (2 ≤ 7)%Z as Hle by lia.
  split; [exact Hle|]. exact (reduction_steps_prefix omega 2 7 Hle).
Defined.

(** ** Composition of bounded normalizations *)

Lemma normalize_loop_add j k t :
  normalize_loop (j + k) t = normalize_loop k (normalize_loop j t).
Proof.
  revert t. induction j as [|j IH]; intros t; simpl; [done|].
  destruct (beta_reduce t) as [reduced|] eqn:Hred; [apply IH|].
  by rewrite !normalize_loop_normal.
Qed.

(** X10.  Bounded normalizations compose: normalizing with bound [j] and
    then with bound [k] is normalizing once with bound [j + k]. *)
Theorem normalize_compose t (j k : Z) :
  (0 ≤ j)%Z → (0 ≤ k)%Z →
  normalize (normalize t j) k = normalize t (j + k).
Proof.
  intros Hj Hk. unfold normalize.
  rewrite Z2Nat.inj_add by done. by rewrite normalize_loop_add.
Qed.

Lemma normalize_compose_witness :
  (0 ≤ 2)%Z ∧ (0 ≤ 3)%Z ∧
  normalize (normalize Y_combinator 2) 3 = normalize Y_combinator (2 + 3).
Proof.
  assert (0 ≤ 2)%Z as Hj by lia. assert (0 ≤ 3)%Z as Hk by lia.
  split; [exact Hj|]. split; [exact Hk|].
  exact (normalize_compose Y_combinator 2 3 Hj Hk).
Defined.

Lemma normalize_loop_stable n n' t :
  beta_reduce (normalize_loop n t) = None → n ≤ n' →
  normalize_loop n' t = normalize_loop n t.
Proof.
  intros Hnf Hle. replace n' with (n + (n' - n)) by lia.
  rewrite normalize_loop_add. by apply normalize_loop_normal.
Qed.

(** X11.  Once a bound is large enough to reach a normal form, the result
    no longer depends on the bound. *)
Theorem normalize_bound_irrelevant t (k k' : Z) :
  is_normal_form (normalize t k) = true → (k ≤ k')%Z →
  normalize t k' = normalize t k.
Proof.
  intros Hnf Hle. unfold normalize in *.
  apply normalize_loop_stable; [|lia].
  unfold is_normal_form in Hnf. by destruct (beta_reduce _).
Qed.

Lemma normalize_bound_irrelevant_witness :
  is_normal_form (normalize (App church_succ (church_numeral 2)) 3) = true ∧
  (3 ≤ 1000)%Z ∧
  normalize (App church_succ (church_numeral 2)) 1000
  = normalize (App church_succ (church_numeral 2)) 3.
Proof.
  assert (is_normal_form (normalize (App church_succ (church_numeral 2)) 3)
    = true) as Hnf by (vm_compute; reflexivity).
  assert (3 ≤ 1000)%Z as Hle by lia.
  split; [exact Hnf|]. split; [exact Hle|].
  exact (normalize_bound_irrelevant _ 3 1000 Hnf Hle).
Defined.

(** ** Eta-conversion keeps free variables *)

(** X12.  When eta-conversion applies, the result has the same free
    variables as the abstraction it came from and three nodes fewer. *)
Theorem eta_convert_free_vars_size t f :
  eta_convert t = Some f →
  free_vars f = free_vars t ∧ term_size t = term_size f + 3.
Proof.
  destruct t as [|var [|?|func [name| |]]|]; simpl; try done.
  case_decide; [|done]. case_decide; [|done].
  intros [= ->]. subst. split; [set_solver|lia].
Qed.

Lemma eta_convert_free_vars_size_witness :
  eta_convert (Abs "x" (App (App (Var "g") (Var "y")) (Var "x")))
    = Some (App (Var "g") (Var "y")) ∧
  free_vars (App (Var "g") (Var "y"))
    = free_vars (Abs "x" (App (App (Var "g") (Var "y")) (Var "x"))) ∧
  term_size (Abs "x" (App (App (Var "g") (Var "y")) (Var "x")))
    = term_size (App (Var "g") (Var "y")) + 3.
Proof.
  assert (eta_convert (Abs "x" (App (App (Var "g") (Var "y")) (Var "x")))
    = Some (App (Var "g") (Var "y"))) as Heta by (vm_compute; reflexivity).
  split; [exact Heta|]. exact (eta_convert_free_vars_size _ _ Heta).
Defined.

(** ** Church numerals *)

#[local] Arguments substitute : simpl never.

(** Towers of applications of a variable, as built by the loop of
    [church_numeral]. *)
Lemma free_vars_iter_App g n base :
  free_vars (Nat.iter n (App (Var g)) base) ⊆ {[ g ]} ∪ free_vars base.
Proof. induction n as [|n IH]; simpl; set_solver. Qed.

Lemma term_size_iter_App g n base :
  term_size (Nat.iter n (App (Var g)) base) = 2 * n + term_size base.
Proof. induction n as [|n IH]; simpl; lia. Qed.

Lemma beta_reduce_iter_App g n t :
  beta_reduce (Nat.iter n (App (Var g)) t)
  = Nat.iter n (App (Var g)) <$> beta_reduce t.
Proof.
  induction n as [|n IH]; simpl.
  - by destruct (beta_reduce t).
  - rewrite IH. by destruct (beta_reduce t).
Qed.

Lemma substitute_iter_App_other g n base x r :
  g ≠ x →
  substitute (Nat.iter n (App (Var g)) base) x r
  = Nat.iter n (App (Var g)) (substitute base x r).
Proof.
  intros Hne. induction n as [|n IH]; simpl; [done|].
  rewrite substitute_App, substitute_Var, IH. by rewrite decide_False.
Qed.

Lemma substitute_iter_App_same g n base r :
  substitute (Nat.iter n (App (Var g)) base) g r
  = Nat.iter n (App r) (substitute base g r).
Proof.
  induction n as [|n IH]; simpl; [done|].
  rewrite substitute_App, substitute_Var, IH. by rewrite decide_True.
Qed.

Lemma church_numeral_unfold n :
  church_numeral n
  = Abs "f" (Abs "x" (Nat.iter (Z.to_nat n) (App (Var "f")) (Var "x"))).
Proof. reflexivity. Qed.

Lemma church_numeral_closed n : free_vars (church_numeral n) = ∅.
Proof.
  rewrite church_numeral_unfold. simpl.
  pose proof (free_vars_iter_App "f" (Z.to_nat n) (Var "x")) as Hsub.
  simpl in Hsub. set_solver.
Qed.

Lemma church_numeral_normal n : beta_reduce (church_numeral n) = None.
Proof.
  rewrite church_numeral_unfold. simpl. by rewrite beta_reduce_iter_App.
Qed.

(** X13.  Every Church numeral is a closed normal form with [2 n + 3]
    nodes, and a non-positive argument gives the numeral zero. *)
Theorem church_numeral_shape n :
  free_vars (church_numeral n) = ∅
  ∧ is_normal_form (church_numeral n) = true
  ∧ count_redexes (church_numeral n) = 0
  ∧ term_size (church_numeral n) = 2 * Z.to_nat n + 3
  ∧ church_numeral (Z.min n 0) = church_numeral 0.
Proof.
  split; [apply church_numeral_closed|].
  assert (is_normal_form (church_numeral n) = true) as Hnf.
  { unfold is_normal_form. by rewrite church_numeral_normal. }
  split; [done|]. split.
  - apply beta_reduce_None_count, church_numeral_normal.
  - split.
    + rewrite church_numeral_unfold. simpl.
      rewrite term_size_iter_App. simpl. lia.
    + rewrite !church_numeral_unfold.
      by replace (Z.to_nat (Z.min n 0)) with (Z.to_nat 0) by lia.
Qed.

Lemma iter_App_inj g n m base :
  (∀ a, base ≠ App (Var g) a) →
  Nat.iter n (App (Var g)) base = Nat.iter m (App (Var g)) base → n = m.
Proof.
  intros Hbase. revert m. induction n as [|n IH]; intros [|m]; simpl.
  - done.
  - intros Heq. by destruct (Hbase _ Heq).
  - intros Heq. by destruct (Hbase _ (eq_sym Heq)).
  - intros [= Heq]. f_equal. by apply IH.
Qed.

(** X14.  Distinct natural numbers have distinct Church numerals. *)
Theorem church_numeral_inj (n m : Z) :
  (0 ≤ n)%Z → (0 ≤ m)%Z → church_numeral n = church_numeral m → n = m.
Proof.
  intros Hn Hm. rewrite !church_numeral_unfold. intros [= Heq].
  apply iter_App_inj in Heq; [lia|done].
Qed.

Lemma church_numeral_inj_witness :
  (0 ≤ 2)%Z ∧ (0 ≤ 1 + 1)%Z ∧ church_numeral 2 = church_numeral (1 + 1) ∧
  2%Z = (1 + 1)%Z.
Proof.
  assert (0 ≤ 2)%Z as Hn by lia. assert (0 ≤ 1 + 1)%Z as Hm by lia.
  assert (church_numeral 2 = church_numeral (1 + 1)) as Heq by reflexivity.
  split; [exact Hn|]. split; [exact Hm|]. split; [exact Heq|].
  exact (church_numeral_inj 2 (1 + 1) Hn Hm Heq).
Defined.

(** ** Church arithmetic for every numeral *)

Lemma beta_reduce_Abs v b :
  beta_reduce (Abs v b) = Abs v <$> beta_reduce b.
Proof. simpl. by destruct (beta_reduce b). Qed.

Lemma beta_reduce_App_Abs v b a :
  beta_reduce (App (Abs v b) a) = Some (substitute b v a).
Proof. reflexivity. Qed.

Lemma beta_reduce_App_Var g t :
  beta_reduce (App (Var g) t) = App (Var g) <$> beta_reduce t.
Proof. simpl. by destruct (beta_reduce t). Qed.

Lemma church_numeral_of_nat n :
  church_numeral (Z.of_nat n)
  = Abs "f" (Abs "x" (Nat.iter n (App (Var "f")) (Var "x"))).
Proof. by rewrite church_numeral_unfold, Nat2Z.id. Qed.

(** A numeral applied to the variable [f] it binds: one step, no
    renaming. *)
Lemma beta_reduce_numeral_f n :
  beta_reduce (App (church_numeral (Z.of_nat n)) (Var "f"))
  = Some (Abs "x" (Nat.iter n (App (Var "f")) (Var "x"))).
Proof.
  rewrite church_numeral_of_nat, beta_reduce_App_Abs.
  by rewrite substitute_self_id.
Qed.

(** The redex [(λx. f (f ... x)) r] puts [r] under the tower. *)
Lemma beta_reduce_tower n r :
  beta_reduce (App (Abs "x" (Nat.iter n (App (Var "f")) (Var "x"))) r)
  = Some (Nat.iter n (App (Var "f")) r).
Proof.
  rewrite beta_reduce_App_Abs, substitute_iter_App_other by done.
  rewrite substitute_Var. by rewrite decide_True.
Qed.

Lemma substitute_numeral n x r :
  free_vars r = ∅ → substitute (church_numeral n) x r = church_numeral n.
Proof.
  intros Hclosed. apply substitute_absent_closed_id; [|done].
  rewrite church_numeral_closed. set_solver.
Qed.

Ltac substitute_closed :=
  repeat first
    [ rewrite substitute_closed_Abs by (first [apply church_numeral_closed|done])
    | rewrite substitute_numeral by apply church_numeral_closed
    | rewrite substitute_App
    | rewrite substitute_Var ];
  repeat first [rewrite decide_True by done|rewrite decide_False by done].

Lemma normalize_loop_step n t t' :
  beta_reduce t = Some t' → normalize_loop (S n) t = normalize_loop n t'.
Proof. intros Hred. simpl. by rewrite Hred. Qed.

Lemma church_succ_steps n :
  normalize_loop 3 (App church_succ (church_numeral (Z.of_nat n)))
  = church_numeral (Z.of_nat (S n)).
Proof.
  erewrite normalize_loop_step; last first.
  { unfold church_succ. rewrite beta_reduce_App_Abs. substitute_closed.
    reflexivity. }
  erewrite normalize_loop_step; last first.
  { rewrite !beta_reduce_Abs, beta_reduce_App_Var.
    rewrite beta_reduce_App_other by done.
    rewrite beta_reduce_numeral_f. reflexivity. }
  erewrite normalize_loop_step; last first.
  { rewrite !beta_reduce_Abs, beta_reduce_App_Var, beta_reduce_tower.
    reflexivity. }
  by rewrite !church_numeral_of_nat.
Qed.

(** X15.  The successor is correct on every numeral: for [n >= 0] and any
    bound of at least 3 steps, normalizing [succ n] gives the numeral
    [n + 1]. *)
Theorem church_succ_correct (n k : Z) :
  (0 ≤ n)%Z → (3 ≤ k)%Z →
  normalize (App church_succ (church_numeral n)) k = church_numeral (n + 1).
Proof.
  intros Hn Hk. unfold normalize.
  rewrite <- (Z2Nat.id n) by done.
  rewrite (normalize_loop_stable 3); [|..].
  - rewrite church_succ_steps. f_equal. lia.
  - rewrite church_succ_steps. apply church_numeral_normal.
  - lia.
Qed.

Lemma church_succ_correct_witness :
  (0 ≤ 41)%Z ∧ (3 ≤ 1000)%Z ∧
  normalize (App church_succ (church_numeral 41)) 1000
  = church_numeral (41 + 1).
Proof.
  assert (0 ≤ 41)%Z as Hn by lia. assert (3 ≤ 1000)%Z as Hk by lia.
  split; [exact Hn|]. split; [exact Hk|].
  exact (church_succ_correct 41 1000 Hn Hk).
Defined.

Lemma church_add_steps m n :
  normalize_loop 6
    (App (App church_add (church_numeral (Z.of_nat m)))
         (church_numeral (Z.of_nat n)))
  = church_numeral (Z.of_nat (m + n)).
Proof.
  erewrite normalize_loop_step; last first.
  { rewrite beta_reduce_App_other by done.
    unfold church_add. rewrite beta_reduce_App_Abs. substitute_closed.
    reflexivity. }
  erewrite normalize_loop_step; last first.
  { rewrite beta_reduce_App_Abs. substitute_closed. reflexivity. }
  erewrite normalize_loop_step; last first.
  { rewrite !beta_reduce_Abs. rewrite beta_reduce_App_other by done.
    rewrite beta_reduce_numeral_f. reflexivity. }
  erewrite normalize_loop_step; last first.
  { rewrite !beta_reduce_Abs, beta_reduce_tower. reflexivity. }
  erewrite normalize_loop_step; last first.
  { rewrite !beta_reduce_Abs, beta_reduce_iter_App.
    rewrite beta_reduce_App_other by done.
    rewrite beta_reduce_numeral_f. reflexivity. }
  erewrite normalize_loop_step; last first.
  { rewrite !beta_reduce_Abs, beta_reduce_iter_App, beta_reduce_tower.
    reflexivity. }
  rewrite !church_numeral_of_nat. simpl. by rewrite Nat.iter_add.
Qed.

(** X16.  Addition is correct on every pair of numerals: for
    [m, n >= 0] and any bound of at least 6 steps, normalizing [add m n]
    gives the numeral [m + n]. *)
Theorem church_add_correct (m n k : Z) :
  (0 ≤ m)%Z → (0 ≤ n)%Z → (6 ≤ k)%Z →
  normalize (App (App church_add (church_numeral m)) (church_numeral n)) k
  = church_numeral (m + n).
Proof.
  intros Hm Hn Hk. unfold normalize.
  rewrite <- (Z2Nat.id m), <- (Z2Nat.id n) by done.
  rewrite (normalize_loop_stable 6); [|..].
  - rewrite church_add_steps. f_equal. lia.
  - rewrite church_add_steps. apply church_numeral_normal.
  - lia.
Qed.

Lemma church_add_correct_witness :
  (0 ≤ 17)%Z ∧ (0 ≤ 25)%Z ∧ (6 ≤ 1000)%Z ∧
  normalize (App (App church_add (church_numeral 17)) (church_numeral 25))
    1000
  = church_numeral (17 + 25).
Proof.
  assert (0 ≤ 17)%Z as Hm by lia. assert (0 ≤ 25)%Z as Hn by lia.
  assert (6 ≤ 1000)%Z as Hk by lia.
  split; [exact Hm|]. split; [exact Hn|]. split; [exact Hk|].
  exact (church_add_correct 17 25 1000 Hm Hn Hk).
Defined.

(** After the three head steps of a product, [b] copies of [n f] remain
    under a tower of height [a]; each copy takes two steps and adds [n]
    to the tower. *)
Lemma church_mult_groups n b : ∀ a,
  normalize_loop (2 * b)
    (Abs "f" (Abs "x"
       (Nat.iter a (App (Var "f"))
          (Nat.iter b (App (App (church_numeral (Z.of_nat n)) (Var "f")))
             (Var "x")))))
  = church_numeral (Z.of_nat (a + n * b)).
Proof.
  induction b as [|b IH]; intros a.
  - replace (a + n * 0) with a by lia.
    by rewrite (church_numeral_of_nat a).
  - replace (2 * S b) with (S (S (2 * b))) by lia.
    erewrite normalize_loop_step; last first.
    { rewrite !beta_reduce_Abs, beta_reduce_iter_App.
      rewrite Nat.iter_succ, beta_reduce_App_other by done.
      rewrite beta_reduce_numeral_f. reflexivity. }
    erewrite normalize_loop_step; last first.
    { rewrite !beta_reduce_Abs, beta_reduce_iter_App, beta_reduce_tower.
      reflexivity. }
    rewrite <- Nat.iter_add, IH. f_equal. lia.
Qed.

Lemma church_mult_steps m n :
  normalize_loop (3 + 2 * m)
    (App (App church_mult (church_numeral (Z.of_nat m)))
         (church_numeral (Z.of_nat n)))
  = church_numeral (Z.of_nat (m * n)).
Proof.
  replace (3 + 2 * m) with (S (S (S (2 * m)))) by lia.
  erewrite normalize_loop_step; last first.
  { rewrite beta_reduce_App_other by done.
    unfold church_mult. rewrite beta_reduce_App_Abs. substitute_closed.
    reflexivity. }
  erewrite normalize_loop_step; last first.
  { rewrite beta_reduce_App_Abs. substitute_closed. reflexivity. }
  erewrite normalize_loop_step; last first.
  { rewrite beta_reduce_Abs.
    rewrite (church_numeral_of_nat m) at 1. rewrite beta_reduce_App_Abs.
    rewrite substitute_Abs. rewrite decide_False by done.
    rewrite decide_True; last first.
    { change (free_vars (App (church_numeral (Z.of_nat n)) (Var "f")))
        with (free_vars (church_numeral (Z.of_nat n)) ∪ {[ "f" ]}).
      rewrite church_numeral_closed. set_solver. }
    rewrite substitute_iter_App_same, substitute_Var.
    rewrite decide_False by done. reflexivity. }
  etransitivity; [exact (church_mult_groups n m 0)|]. f_equal. lia.
Qed.

(** X17.  Multiplication is correct on every pair of numerals: for
    [m, n >= 0] and any bound of at least [3 + 2 m] steps, normalizing
    [mult m n] gives the numeral [m * n]. *)
Theorem church_mult_correct (m n k : Z) :
  (0 ≤ m)%Z → (0 ≤ n)%Z → (3 + 2 * m ≤ k)%Z →
  normalize (App (App church_mult (church_numeral m)) (church_numeral n)) k
  = church_numeral (m * n).
Proof.
  intros Hm Hn Hk. unfold normalize.
  rewrite <- (Z2Nat.id m), <- (Z2Nat.id n) by done.
  rewrite (normalize_loop_stable (3 + 2 * Z.to_nat m)); [|..].
  - rewrite church_mult_steps. f_equal. lia.
  - rewrite church_mult_steps. apply church_numeral_normal.
  - lia.
Qed.

Lemma church_mult_correct_witness :
  (0 ≤ 7)%Z ∧ (0 ≤ 6)%Z ∧ (3 + 2 * 7 ≤ 1000)%Z ∧
  normalize (App (App church_mult (church_numeral 7)) (church_numeral 6))
    1000
  = church_numeral (7 * 6).
Proof.
  assert (0 ≤ 7)%Z as Hm by lia. assert (0 ≤ 6)%Z as Hn by lia.
  assert (3 + 2 * 7 ≤ 1000)%Z as Hk by lia.
  split; [exact Hm|]. split; [exact Hn|]. split; [exact Hk|].
  exact (church_mult_correct 7 6 1000 Hm Hn Hk).
Defined.

(** ** Church booleans *)

(** X18.  The Church connectives compute the truth tables: for all truth
    values and any bound of at least 4 steps, [and p q], [or p q] and
    [not p] normalize to the Church boolean of [p && q], [p || q] and
    [negb p]. *)
Theorem church_connectives_correct (p q : bool) (k : Z) :
  (4 ≤ k)%Z →
  normalize (App (App church_and (church_bool p)) (church_bool q)) k
    = church_bool (p && q)
  ∧ normalize (App (App church_or (church_bool p)) (church_bool q)) k
    = church_bool (p || q)
  ∧ normalize (App church_not (church_bool p)) k = church_bool (negb p).
Proof.
  intros Hk. unfold normalize.
  split; [|split]; destruct p, q;
    (rewrite (normalize_loop_stable 4 (Z.to_nat k));
      [vm_compute; reflexivity|vm_compute; reflexivity|lia]).
Qed.

Lemma church_connectives_correct_witness :
  (4 ≤ 1000)%Z ∧
  normalize (App (App church_and church_true) church_false) 1000
    = church_false.
Proof.
  assert (4 ≤ 1000)%Z as Hk by lia.
  split; [exact Hk|].
  exact (proj1 (church_connectives_correct true false 1000 Hk)).
Defined.

(** ** The fixed-point combinator *)

Lemma beta_reduce_Y_body :
  beta_reduce (App Y_inner Y_inner)
  = Some (App (Var "f") (App Y_inner Y_inner)).
Proof. vm_compute. reflexivity. Qed.


(** *** With a bounded call stack *)

(** A result of the bounded functions is the result of the unbounded
    ones. *)
Lemma beta_reduce_stack_sound frames : ∀ t r,
  beta_reduce_stack frames t = Returned r → beta_reduce t = r.
Proof.
  induction frames as [|frames IH]; intros t r Hred; [done|].
  destruct t as [name|v b|f a]; simpl in Hred.
  - by injection Hred.
  - destruct (beta_reduce_stack frames b) as [[rb|]|] eqn:Hb; [| |done].
    + apply IH in Hb. injection Hred as <-. simpl. by rewrite Hb.
    + apply IH in Hb. injection Hred as <-. simpl. by rewrite Hb.
  - destruct (is_Abs f) eqn:Hf.
    + destruct f as [|v b|]; try done. by injection Hred.
    + rewrite beta_reduce_App_other by done.
      assert (match beta_reduce_stack frames f with
              | RecursionError => RecursionError
              | Returned (Some reduced_func) =>
                  Returned (Some (App reduced_func a))
              | Returned None =>
                  match beta_reduce_stack frames a with
                  | RecursionError => RecursionError
                  | Returned (Some reduced_arg) =>
                      Returned (Some (App f reduced_arg))
                  | Returned None => Returned None
                  end
              end = Returned r) as Hred' by by destruct f.
      clear Hred.
      destruct (beta_reduce_stack frames f) as [[rf|]|] eqn:Hrf; [| |done].
      * apply IH in Hrf. rewrite Hrf. by injection Hred'.
      * apply IH in Hrf. rewrite Hrf.
        destruct (beta_reduce_stack frames a) as [[ra|]|] eqn:Hra; [| |done].
        -- apply IH in Hra. rewrite Hra. by injection Hred'.
        -- apply IH in Hra. rewrite Hra. by injection Hred'.
Qed.

Lemma normalize_stack_loop_sound frames remaining : ∀ t r,
  normalize_stack_loop frames remaining t = Returned r →
  normalize_loop remaining t = r.
Proof.
  induction remaining as [|n IH]; intros t r Hnorm; simpl in *.
  - by injection Hnorm.
  - destruct (beta_reduce_stack frames t) as [[reduced|]|] eqn:Hred; [| |done].
    + apply beta_reduce_stack_sound in Hred. rewrite Hred. by apply IH.
    + apply beta_reduce_stack_sound in Hred. rewrite Hred. by injection Hnorm.
Qed.

Lemma reduction_steps_stack_loop_sound frames remaining : ∀ steps t r,
  reduction_steps_stack_loop frames remaining steps t = Returned r →
  reduction_steps_loop remaining steps t = r.
Proof.
  induction remaining as [|n IH]; intros steps t r Hsteps; simpl in *.
  - by injection Hsteps.
  - destruct (beta_reduce_stack frames t) as [[reduced|]|] eqn:Hred; [| |done].
    + apply beta_reduce_stack_sound in Hred. rewrite Hred. by apply IH.
    + apply beta_reduce_stack_sound in Hred. rewrite Hred.
      by injection Hsteps.
Qed.

(** Walking down a tower of [j] applications of [f] to reach the redex
    under it takes [j + 1] frames. *)
Lemma beta_reduce_stack_tower j : ∀ frames,
  beta_reduce_stack frames
    (Nat.iter j (App (Var "f")) (App Y_inner Y_inner))
  = if decide (j + 1 ≤ frames)
    then Returned
           (Some (Nat.iter (S j) (App (Var "f")) (App Y_inner Y_inner)))
    else RecursionError.
Proof.
  induction j as [|j IH]; intros frames.
  - destruct frames as [|frames].
    + by rewrite decide_False by lia.
    + rewrite decide_True by lia.
      change (beta_reduce_stack (S frames) (Nat.iter 0 (App (Var "f"))
                (App Y_inner Y_inner)))
        with (Returned (A := option LambdaTerm)
                (beta_reduce (App Y_inner Y_inner))).
      by rewrite beta_reduce_Y_body.
  - destruct frames as [|frames]; [by rewrite decide_False by lia|].
    rewrite Nat.iter_succ.
    change (beta_reduce_stack (S frames)
              (App (Var "f")
                 (Nat.iter j (App (Var "f")) (App Y_inner Y_inner))))
      with (match beta_reduce_stack frames (Var "f") with
            | RecursionError => RecursionError
            | Returned (Some reduced_func) =>
                Returned (Some (App reduced_func
                  (Nat.iter j (App (Var "f")) (App Y_inner Y_inner))))
            | Returned None =>
                match beta_reduce_stack frames
                        (Nat.iter j (App (Var "f")) (App Y_inner Y_inner)) with
                | RecursionError => RecursionError
                | Returned (Some reduced_arg) =>
                    Returned (Some (App (Var "f") reduced_arg))
                | Returned None => Returned None
                end
            end).
    rewrite IH. destruct frames as [|frames].
    + cbn [beta_reduce_stack]. by rewrite decide_False by lia.
    + cbn [beta_reduce_stack]. case_decide.
      * rewrite decide_True by lia. by rewrite <- Nat.iter_succ.
      * by rewrite decide_False by lia.
Qed.

Lemma beta_reduce_stack_Y j frames :
  beta_reduce_stack frames (Y_unfolded j)
  = if decide (j + 2 ≤ frames) then Returned (Some (Y_unfolded (S j)))
    else RecursionError.
Proof.
  unfold Y_unfolded. destruct frames as [|frames].
  - by rewrite decide_False by lia.
  - cbn [beta_reduce_stack]. rewrite beta_reduce_stack_tower.
    case_decide.
    + by rewrite decide_True by lia.
    + by rewrite decide_False by lia.
Qed.

(** [remaining] steps from the [j]-th unfolding need [j + remaining + 1]
    frames: the last step walks the deepest term. *)
Lemma normalize_stack_loop_Y frames remaining : ∀ j,
  normalize_stack_loop frames remaining (Y_unfolded j)
  = if decide (remaining = 0 ∨ j + remaining + 1 ≤ frames)
    then Returned (Y_unfolded (j + remaining))
    else RecursionError.
Proof.
  induction remaining as [|n IH]; intros j.
  - cbn [normalize_stack_loop]. rewrite decide_True by auto.
    by rewrite Nat.add_0_r.
  - cbn [normalize_stack_loop]. rewrite beta_reduce_stack_Y.
    destruct (decide (j + 2 ≤ frames)) as [Hj|Hj].
    + rewrite IH. destruct (decide (n = 0 ∨ S j + n + 1 ≤ frames)).
      * rewrite decide_True by lia. do 2 f_equal. lia.
      * by rewrite decide_False by lia.
    + by rewrite decide_False by lia.
Qed.

Lemma reduction_steps_stack_loop_Y frames remaining : ∀ steps j,
  0 < remaining → frames < j + remaining + 1 →
  reduction_steps_stack_loop frames remaining steps (Y_unfolded j)
  = RecursionError.
Proof.
  induction remaining as [|n IH]; intros steps j Hpos Hframes; [lia|].
  cbn [reduction_steps_stack_loop]. rewrite beta_reduce_stack_Y.
  destruct (decide (j + 2 ≤ frames)) as [Hj|Hj]; [|done].
  apply IH; lia.
Qed.

(** C3.  The step bound does not contain the reduction of the Y
    combinator at the default bound.  After [j] steps the term is [j + 2]
    levels deep and [beta_reduce] needs as many frames, so with the
    default limit of 1000 frames, or any part of them, [normalize] and
    [reduction_steps] at the default bound of 1000 steps end in
    [RecursionError] and return no truncated result. *)
Theorem step_bound_fails_on_Y frames :
  normalize_stack (Nat.min frames default_recursion_limit) Y_combinator
    default_max_steps = RecursionError
  ∧ reduction_steps_stack (Nat.min frames default_recursion_limit)
      Y_combinator default_max_steps = RecursionError.
Proof.
  unfold normalize_stack, reduction_steps_stack.
  change (Z.to_nat default_max_steps) with 1000.
  change default_recursion_limit with 1000.
  change Y_combinator with (Y_unfolded 0). split.
  - rewrite normalize_stack_loop_Y. by rewrite decide_False by lia.
  - apply reduction_steps_stack_loop_Y; lia.
Qed.



(** ** The interactive front end *)

(** X21.  The built-in environment holds 22 definitions, [c0] to [c9]
    are the numerals 0 to 9, every built-in term is closed, and the only
    built-ins that are not normal forms are [omega] and [Y]. *)
Theorem setup_builtins_closed :
  size setup_builtins = 22
  ∧ (∀ i, i < 10 →
       setup_builtins !! ("c" +:+ pretty i) = Some (church_numeral (Z.of_nat i)))
  ∧ map_Forall (λ _ term, free_vars term = ∅) setup_builtins
  ∧ map_Forall (λ name term,
       is_normal_form term = false ↔ name = "omega" ∨ name = "Y")
      setup_builtins.
Proof.
  split; [vm_compute; reflexivity|]. split.
  { intros i Hi.
    do 10 (destruct i as [|i]; [vm_compute; reflexivity|]). lia. }
  split.
  - apply (bool_decide_unpack _). vm_compute. reflexivity.
  - apply (bool_decide_unpack _). vm_compute. reflexivity.
Qed.

Lemma step_line_not_note (i : nat) step :
  "  Step " +:+ pretty i +:+ ": " +:+ term_str step ≠ limited_note.
Proof. unfold limited_note. simpl. discriminate. Qed.

Lemma header_not_note name :
  newline +:+ "Reduction steps for '" +:+ name +:+ "':" ≠ limited_note.
Proof. unfold limited_note, newline. simpl. discriminate. Qed.

(** X22.  [:steps] prints one header, one line per trace entry, and the
    note about the limit exactly when the trace has 11 entries, that is
    when ten reductions were possible.  A term still reducible after ten
    steps always gets the note; so does a term that reaches its normal
    form with the tenth step. *)
Theorem repl_limited_note (env : gmap string LambdaTerm) name term :
  env !! name = Some term →
  (limited_note ∈ show_reduction_steps env name
     ↔ length (reduction_steps term 10) = 11)
  ∧ (is_normal_form (normalize term 10) = false →
     limited_note ∈ show_reduction_steps env name)
  ∧ length (show_reduction_steps env name)
    = 1 + length (reduction_steps term 10)
      + (if decide (length (reduction_steps term 10) = 11) then 1 else 0).
Proof.
  intros Hname.
  assert (limited_note ∈ show_reduction_steps env name
     ↔ length (reduction_steps term 10) = 11) as Hiff.
  { unfold show_reduction_steps. rewrite Hname. cbn zeta.
    rewrite elem_of_app, list_elem_of_singleton, elem_of_app.
    rewrite elem_of_lookup_imap. split.
    - intros [Hhead|[(i & step & Hline & _)|Hnote]].
      + by destruct (header_not_note name).
      + by destruct (step_line_not_note i step).
      + case_decide; [done|]. by apply elem_of_nil in Hnote.
    - intros Hlen. right. right. rewrite decide_True by done.
      by apply list_elem_of_singleton. }
  split; [exact Hiff|]. split.
  - intros Hnf. apply Hiff. unfold reduction_steps, normalize in *.
    destruct (reduction_steps_loop_full_or_normal 10 [term] term)
      as [Hlen|Hnormal]; [done|].
    change (Z.to_nat 10) with 10 in Hnf. congruence.
  - unfold show_reduction_steps. rewrite Hname. cbn zeta.
    rewrite !length_app, length_imap. simpl. case_decide; simpl; lia.
Qed.

(** Ten nested applications of the identity take exactly ten steps: the
    normal form is reached and the note is printed all the same. *)
Lemma repl_limited_note_witness :
  ({[ "t" := Nat.iter 10 (App (Abs "x" (Var "x"))) (Var "a") ]}
     : gmap string LambdaTerm) !! "t"
    = Some (Nat.iter 10 (App (Abs "x" (Var "x"))) (Var "a")) ∧
  length (reduction_steps
            (Nat.iter 10 (App (Abs "x" (Var "x"))) (Var "a")) 10) = 11 ∧
  is_normal_form
    (normalize (Nat.iter 10 (App (Abs "x" (Var "x"))) (Var "a")) 10) = true ∧
  limited_note ∈
    show_reduction_steps
      {[ "t" := Nat.iter 10 (App (Abs "x" (Var "x"))) (Var "a") ]} "t".
Proof.
  assert (({[ "t" := Nat.iter 10 (App (Abs "x" (Var "x"))) (Var "a") ]}
     : gmap string LambdaTerm) !! "t"
    = Some (Nat.iter 10 (App (Abs "x" (Var "x"))) (Var "a"))) as Hname
    by (vm_compute; reflexivity).
  assert (length (reduction_steps
            (Nat.iter 10 (App (Abs "x" (Var "x"))) (Var "a")) 10) = 11)
    as Hlen by (vm_compute; reflexivity).
  split; [exact Hname|]. split; [exact Hlen|].
  split; [vm_compute; reflexivity|].
  exact (proj2 (proj1 (repl_limited_note _ _ _ Hname)) Hlen).
Defined.

(** ** Substitution for a variable that does not occur *)

Lemma substitute_absent_size n :
  ∀ t, term_size t ≤ n → ∀ x r,
    x ∉ free_vars t → term_size (substitute t x r) = term_size t.
Proof.
  induction n as [|n IH]; intros t Hsize x r Hx.
  - pose proof (term_size_pos t). lia.
  - destruct t as [name|v b|f a]; simpl in Hsize, Hx.
    + rewrite substitute_Var. rewrite decide_False; [done|]. set_solver.
    + rewrite substitute_Abs. case_decide as Hvx; [done|].
      case_decide as Hfree.
      * simpl. rewrite IH; [done|lia|set_solver].
      * cbn zeta.
        pose proof (fresh_var_not_in v
          (free_vars r ∪ free_vars b ∪ {[ x ]})) as Hfresh.
        set (fresh := _fresh_var v _) in *. simpl.
        rewrite IH; [by rewrite substitute_Var_size| |].
        -- rewrite substitute_Var_size. lia.
        -- rewrite free_vars_substitute. simpl. clear IH.
           case_decide; set_solver.
    + rewrite substitute_App. simpl.
      rewrite !IH; [done|lia|set_solver|lia|set_solver].
Qed.

(** X23.  Substituting for a variable that is not free in the term leaves
    its free variables and its size unchanged, but the term itself may
    change: an abstraction whose bound name is free in the replacement
    gets a new bound name even then. *)
Theorem substitute_absent_renames :
  (∀ t x r,
     x ∉ free_vars t →
     free_vars (substitute t x r) = free_vars t ∧
     term_size (substitute t x r) = term_size t)
  ∧ (∀ v b x r,
       v ≠ x → v ∈ free_vars r → substitute (Abs v b) x r ≠ Abs v b).
Proof.
  split.
  - intros t x r Hx. split.
    + rewrite free_vars_substitute. rewrite decide_False by done. set_solver.
    + by apply (substitute_absent_size (term_size t)).
  - intros v b x r Hne Hin. rewrite substitute_Abs.
    rewrite decide_False by done. rewrite decide_False by tauto.
    cbn zeta.
    pose proof (fresh_var_not_in v
      (free_vars r ∪ free_vars b ∪ {[ x ]})) as Hfresh.
    intros [= Heq _]. rewrite Heq in Hfresh. set_solver.
Qed.

Lemma substitute_absent_renames_witness :
  ("x" ∉ free_vars (Abs "y" (Var "y"))) ∧ "y" ≠ "x" ∧
  "y" ∈ free_vars (Var "y") ∧
  term_size (substitute (Abs "y" (Var "y")) "x" (Var "y"))
    = term_size (Abs "y" (Var "y")) ∧
  substitute (Abs "y" (Var "y")) "x" (Var "y") ≠ Abs "y" (Var "y").
Proof.
  assert ("x" ∉ free_vars (Abs "y" (Var "y"))) as Hx
    by (apply (bool_decide_unpack _); vm_compute; exact I).
  assert ("y" ≠ "x") as Hne by discriminate.
  assert ("y" ∈ free_vars (Var "y")) as Hin
    by (apply (bool_decide_unpack _); vm_compute; exact I).
  split; [exact Hx|]. split; [exact Hne|]. split; [exact Hin|]. split.
  - exact (proj2 (proj1 substitute_absent_renames _ _ (Var "y") Hx)).
  - exact (proj2 substitute_absent_renames _ (Var "y") _ _ Hne Hin).
Defined.

(** ** Equality of terms *)

(** X24.  [__eq__] is syntactic identity: it holds exactly between a term
    and itself, so it is an equivalence, and two abstractions that differ
    only in the name of the bound variable are not equal. *)
Theorem term_eq_syntactic :
  (∀ s t, term_eq s t = true ↔ s = t)
  ∧ (∀ t, term_eq t t = true)
  ∧ (∀ s t, term_eq s t = term_eq t s)
  ∧ (∀ x y body,
       x ≠ y → term_eq (Abs x body) (Abs y (substitute body x (Var y)))
               = false).
Proof.
  split; [apply term_eq_spec|]. split; [intros t; by apply term_eq_spec|].
  split.
  - intros s t. destruct (term_eq s t) eqn:Hst.
    + apply term_eq_spec in Hst as ->. symmetry. by apply term_eq_spec.
    + destruct (term_eq t s) eqn:Hts; [|done].
      apply term_eq_spec in Hts as ->.
      assert (term_eq s s = true) by by apply term_eq_spec. congruence.
  - intros x y body Hne. simpl. by rewrite bool_decide_eq_false_2.
Qed.

(** ** Bounds that allow no step *)

(** X25.  With a zero or negative bound no reduction step is made:
    [normalize] returns its argument and [reduction_steps] the one-entry
    trace, also for reducible terms. *)
Theorem no_step_without_bound t (k : Z) :
  (k ≤ 0)%Z → normalize t k = t ∧ reduction_steps t k = [t].
Proof.
  intros Hk. unfold normalize, reduction_steps.
  by replace (Z.to_nat k) with 0 by lia.
Qed.

Lemma no_step_without_bound_witness :
  (-5 ≤ 0)%Z ∧ normalize omega (-5) = omega ∧
  reduction_steps omega (-5) = [omega].
Proof.
  assert (-5 ≤ 0)%Z as Hk by lia.
  split; [exact Hk|]. exact (no_step_without_bound omega (-5) Hk).
Defined.

(** ** Display determines the term *)

Lemma app_String c s r : String c s +:+ r = String c (s +:+ r).
Proof. reflexivity. Qed.

Lemma app_empty_l r : "" +:+ r = r.
Proof. reflexivity. Qed.

Lemma string_app_assoc s1 s2 s3 : (s1 +:+ s2) +:+ s3 = s1 +:+ (s2 +:+ s3).
Proof. induction s1 as [|c s1 IH]; [done|]. by rewrite !app_String, IH. Qed.

Lemma string_app_nil_r s : s +:+ "" = s.
Proof. induction s as [|c s IH]; [done|]. by rewrite app_String, IH. Qed.

Lemma closes_stops r : closes r → stops r.
Proof. destruct r; simpl; auto. Qed.

Lemma name_lemma n1 n2 r1 r2 :
  name_ok n1 = true → name_ok n2 = true →
  (match r1 with EmptyString => True | String c _ => is_delim c = true end) →
  (match r2 with EmptyString => True | String c _ => is_delim c = true end) →
  n1 +:+ r1 = n2 +:+ r2 → n1 = n2 ∧ r1 = r2.
Proof.
  revert n2. induction n1 as [|c1 n1 IH]; intros [|c2 n2] Hn1 Hn2 Hr1 Hr2 Heq.
  - done.
  - rewrite app_empty_l, app_String in Heq. subst r1. simpl in Hn2, Hr1.
    rewrite Hr1 in Hn2. done.
  - rewrite app_empty_l, app_String in Heq. subst r2. simpl in Hn1, Hr2.
    rewrite Hr2 in Hn1. done.
  - rewrite ?app_String in Heq. injection Heq as -> Heq.
    simpl in Hn1, Hn2. apply andb_true_iff in Hn1 as [_ Hn1].
    apply andb_true_iff in Hn2 as [_ Hn2].
    destruct (IH n2 Hn1 Hn2 Hr1 Hr2 Heq) as [-> ->]. done.
Qed.

Lemma stops_delim r :
  stops r → match r with EmptyString => True | String c _ => is_delim c = true end.
Proof.
  destruct r as [|c r]; [done|]. simpl.
  intros [Hc|Hc]; injection Hc as ->; by vm_compute.
Qed.

Lemma term_str_App f a : term_str (App f a) = term_str f +:+ " " +:+ arg_str a.
Proof. by destruct a. Qed.

Lemma term_str_spine t :
  term_str t = term_str (spine_head t) +:+ args_str (spine_args t).
Proof.
  induction t as [name|v b _|f IHf a _].
  - simpl. by rewrite string_app_nil_r.
  - cbn [spine_head spine_args args_str]. by rewrite string_app_nil_r.
  - rewrite term_str_App. cbn [spine_head spine_args]. rewrite IHf.
    rewrite string_app_assoc. f_equal.
    generalize (spine_args f). intros l. induction l as [|x l IH].
    + simpl. by rewrite !app_empty_l, string_app_nil_r.
    + cbn [app args_str]. rewrite <- IH. by rewrite !string_app_assoc.
Qed.

Lemma spine_rebuild t : t = foldl App (spine_head t) (spine_args t).
Proof.
  induction t as [name|v b _|f IHf a _]; [done|done|].
  cbn [spine_head spine_args]. by rewrite foldl_snoc, <- IHf.
Qed.

Lemma spine_head_not_App t : is_App (spine_head t) = false.
Proof. induction t; simpl; done. Qed.

Lemma spine_head_size t : term_size (spine_head t) ≤ term_size t.
Proof. induction t; simpl; lia. Qed.

Lemma spine_args_size t a : a ∈ spine_args t → term_size a < term_size t.
Proof.
  induction t as [name|v b _|f IHf a' _]; simpl.
  - by intros ?%elem_of_nil.
  - by intros ?%elem_of_nil.
  - rewrite elem_of_app, list_elem_of_singleton. intros [Hin| ->].
    + specialize (IHf Hin). lia.
    + lia.
Qed.

Lemma spine_head_ok t : names_ok t = true → names_ok (spine_head t) = true.
Proof.
  induction t as [name|v b _|f IHf a _]; simpl; try done.
  intros [Hf _]%andb_true_iff. auto.
Qed.

Lemma spine_args_ok t a :
  names_ok t = true → a ∈ spine_args t → names_ok a = true.
Proof.
  induction t as [name|v b _|f IHf a' _]; simpl.
  - by intros _ ?%elem_of_nil.
  - by intros _ ?%elem_of_nil.
  - intros [Hf Ha]%andb_true_iff.
    rewrite elem_of_app, list_elem_of_singleton. intros [Hin| ->]; auto.
Qed.

Lemma args_str_stops args c : closes c → stops (args_str args +:+ c).
Proof.
  intros Hc. destruct args as [|a args].
  - rewrite app_empty_l. by apply closes_stops.
  - cbn [args_str]. rewrite app_String. simpl. by left.
Qed.

(** The induction is on the size of the first term: [IH] is the statement
    for terms of at most [n] nodes. *)
Section display_injective.
Variable n : nat.
Hypothesis IH : ∀ t1 t2 c1 c2,
  term_size t1 ≤ n → names_ok t1 = true → names_ok t2 = true →
  closes c1 → closes c2 →
  term_str t1 +:+ c1 = term_str t2 +:+ c2 → t1 = t2 ∧ c1 = c2.

Lemma head_str_inj h1 h2 r1 r2 :
  is_App h1 = false → is_App h2 = false →
  term_size h1 ≤ S n → names_ok h1 = true → names_ok h2 = true →
  stops r1 → stops r2 →
  term_str h1 +:+ r1 = term_str h2 +:+ r2 → h1 = h2 ∧ r1 = r2.
Proof.
  intros Hh1 Hh2 Hsize Hok1 Hok2 Hr1 Hr2 Heq.
  destruct h1 as [n1|v1 b1|]; [| |done]; destruct h2 as [n2|v2 b2|]; try done.
  - simpl in *.
    by destruct (name_lemma n1 n2 r1 r2 Hok1 Hok2
      (stops_delim _ Hr1) (stops_delim _ Hr2) Heq) as [-> ->].
  - exfalso. simpl in Heq, Hok1. rewrite ?app_String in Heq.
    destruct n1 as [|c n1].
    + rewrite ?app_empty_l in Heq. subst r1. simpl in Hr1.
      by destruct Hr1.
    + rewrite app_String in Heq. injection Heq as -> _. done.
  - exfalso. simpl in Heq, Hok2. rewrite ?app_String in Heq.
    destruct n2 as [|c n2].
    + rewrite ?app_empty_l in Heq. subst r2. simpl in Hr2.
      by destruct Hr2.
    + rewrite app_String in Heq. injection Heq as <- _. done.
  - simpl in Heq, Hok1, Hok2, Hsize.
    apply andb_true_iff in Hok1 as [Hv1 Hb1].
    apply andb_true_iff in Hok2 as [Hv2 Hb2].
    rewrite ?app_String, ?app_empty_l in Heq.
    injection Heq as Heq. rewrite ?string_app_assoc in Heq.
    apply name_lemma in Heq as [-> Heq]; [|done|done|by vm_compute..].
    rewrite ?app_String, ?app_empty_l in Heq. injection Heq as Heq.
    rewrite ?string_app_assoc in Heq.
    apply IH in Heq as [-> Heq]; [|lia|done|done|exact eq_refl..].
    rewrite ?app_String, ?app_empty_l in Heq. by injection Heq as ->.
Qed.

Lemma arg_str_inj a1 a2 r1 r2 :
  term_size a1 ≤ n → names_ok a1 = true → names_ok a2 = true →
  stops r1 → stops r2 →
  arg_str a1 +:+ r1 = arg_str a2 +:+ r2 → a1 = a2 ∧ r1 = r2.
Proof.
  intros Hsize Hok1 Hok2 Hr1 Hr2 Heq.
  assert (∀ name r t r',
    name_ok name = true → stops r →
    name +:+ r ≠ ("(" +:+ term_str t +:+ ")") +:+ r') as Hmix.
  { intros name r t r' Hname Hr Hbad. rewrite ?app_String in Hbad.
    destruct name as [|c name].
    - rewrite ?app_empty_l in Hbad. subst r. simpl in Hr. by destruct Hr.
    - rewrite app_String in Hbad. injection Hbad as -> _. done. }
  assert (∀ t1 t2,
    term_size t1 ≤ n → names_ok t1 = true → names_ok t2 = true →
    ("(" +:+ term_str t1 +:+ ")") +:+ r1
      = ("(" +:+ term_str t2 +:+ ")") +:+ r2 → t1 = t2 ∧ r1 = r2) as Hgrp.
  { intros t1 t2 Hs H1 H2 Hg. rewrite ?app_String, ?app_empty_l in Hg.
    injection Hg as Hg. rewrite ?string_app_assoc in Hg.
    apply IH in Hg as [-> Hg]; [|done|done|done|exact eq_refl..].
    rewrite ?app_String, ?app_empty_l in Hg. by injection Hg as ->. }
  destruct a1 as [n1|v1 b1|f1 x1]; destruct a2 as [n2|v2 b2|f2 x2];
    cbn [arg_str] in Heq.
  - simpl in *.
    by destruct (name_lemma n1 n2 r1 r2 Hok1 Hok2
      (stops_delim _ Hr1) (stops_delim _ Hr2) Heq) as [-> ->].
  - by destruct (Hmix _ _ _ _ Hok1 Hr1 Heq).
  - by destruct (Hmix _ _ _ _ Hok1 Hr1 Heq).
  - by destruct (Hmix _ _ _ _ Hok2 Hr2 (eq_sym Heq)).
  - by apply Hgrp.
  - by apply Hgrp.
  - by destruct (Hmix _ _ _ _ Hok2 Hr2 (eq_sym Heq)).
  - by apply Hgrp.
  - by apply Hgrp.
Qed.

Lemma args_str_inj args1 : ∀ args2 c1 c2,
  Forall (λ a, term_size a ≤ n ∧ names_ok a = true) args1 →
  Forall (λ a, names_ok a = true) args2 →
  closes c1 → closes c2 →
  args_str args1 +:+ c1 = args_str args2 +:+ c2 →
  args1 = args2 ∧ c1 = c2.
Proof.
  induction args1 as [|a1 args1 IHargs];
    intros [|a2 args2] c1 c2 H1 H2 Hc1 Hc2 Heq.
  - done.
  - exfalso. cbn [args_str] in Heq.
    rewrite app_empty_l, app_String in Heq. subst c1. done.
  - exfalso. cbn [args_str] in Heq.
    rewrite app_empty_l, app_String in Heq. subst c2. done.
  - cbn [args_str] in Heq. rewrite ?app_String, ?app_empty_l in Heq.
    injection Heq as Heq. rewrite ?string_app_assoc in Heq.
    inversion_clear H1 as [|? ? [Hs1 Hok1] H1']. inversion_clear H2 as [|? ? Hok2 H2'].
    apply arg_str_inj in Heq as [-> Heq];
      [|done|done|done|by apply args_str_stops..].
    apply IHargs in Heq as [-> ->]; done.
Qed.
End display_injective.

Lemma term_str_inj_size n : ∀ t1 t2 c1 c2,
  term_size t1 ≤ n → names_ok t1 = true → names_ok t2 = true →
  closes c1 → closes c2 →
  term_str t1 +:+ c1 = term_str t2 +:+ c2 → t1 = t2 ∧ c1 = c2.
Proof.
  induction n as [|n IH]; intros t1 t2 c1 c2 Hsize Hok1 Hok2 Hc1 Hc2 Heq.
  - pose proof (term_size_pos t1). lia.
  - rewrite (term_str_spine t1), (term_str_spine t2) in Heq.
    rewrite ?string_app_assoc in Heq.
    apply (head_str_inj n IH) in Heq as [Hhead Heq].
    + apply (args_str_inj n IH) in Heq as [Hargs ->].
      * split; [|done].
        rewrite (spine_rebuild t1), (spine_rebuild t2). by rewrite Hhead, Hargs.
      * apply Forall_forall. intros a Ha. split.
        -- apply spine_args_size in Ha. lia.
        -- by apply (spine_args_ok t1).
      * apply Forall_forall. intros a Ha. by apply (spine_args_ok t2).
      * done.
      * done.
    + apply spine_head_not_App.
    + apply spine_head_not_App.
    + pose proof (spine_head_size t1). lia.
    + by apply spine_head_ok.
    + by apply spine_head_ok.
    + by apply args_str_stops.
    + by apply args_str_stops.
Qed.

Lemma term_str_inj t1 t2 :
  names_ok t1 = true → names_ok t2 = true →
  term_str t1 = term_str t2 → t1 = t2.
Proof.
  intros Hok1 Hok2 Heq.
  destruct (term_str_inj_size (term_size t1) t1 t2 "" "") as [-> _];
    [done..| |done].
  by rewrite !string_app_nil_r.
Qed.

(** X26.  On terms whose names contain no space, parenthesis or dot, the
    display is injective: two such terms with the same [__str__] text are
    the same term, so comparing them by their text is comparing them.
    Without the condition on names it is not: the variable named [f x]
    prints like the application of [f] to [x]. *)
Theorem term_str_injective :
  (∀ t1 t2,
     names_ok t1 = true → names_ok t2 = true →
     term_str t1 = term_str t2 → t1 = t2)
  ∧ term_str (Var "f x") = term_str (App (Var "f") (Var "x")).
Proof. split; [apply term_str_inj|reflexivity]. Qed.

Lemma term_str_injective_witness :
  names_ok (church_numeral 3) = true ∧
  names_ok (normalize (App church_succ (church_numeral 2)) 1000) = true ∧
  term_str (normalize (App church_succ (church_numeral 2)) 1000)
    = term_str (church_numeral 3) ∧
  normalize (App church_succ (church_numeral 2)) 1000 = church_numeral 3.
Proof.
  assert (names_ok (church_numeral 3) = true) as Hok3
    by (vm_compute; reflexivity).
  assert (names_ok (normalize (App church_succ (church_numeral 2)) 1000)
    = true) as Hok by (vm_compute; reflexivity).
  assert (term_str (normalize (App church_succ (church_numeral 2)) 1000)
    = term_str (church_numeral 3)) as Hstr by (vm_compute; reflexivity).
  split; [exact Hok3|]. split; [exact Hok|]. split; [exact Hstr|].
  exact (proj1 term_str_injective _ _ Hok Hok3 Hstr).
Defined.

(** ** The lookup commands of the front end agree *)






